(** * Network panel search scope (front_end/panels/network/NetworkSearchScope.ts)

    A shallow embedding of [NetworkSearchScope], [UIRequestLocation] and
    [NetworkSearchResult], and the properties of the search run that the
    specification states about them.

    Conventions of the embedding:
    - JavaScript strings are [string]s, indices and lengths are [nat]s,
      other numbers are [Z];
    - a thrown exception is the [Throw] completion;
    - the calls on the [Progress] object and on the two callbacks are
      recorded, in order, in the log of the [World];
    - platform objects ([RegExp], [String.prototype.localeCompare]) and the
      collaborators outside this file ([SearchConfig], [NetworkRequest],
      [Progress]) are records of what their methods return. *)

From stdpp Require Import base option list strings sorting.
From Stdlib Require Import ZArith Ascii String Lia DecimalString.
From Stdlib Require DecimalZ DecimalPos.

Local Open Scope string_scope.
Local Open Scope list_scope.
Local Open Scope nat_scope.

(** ** Completions *)

(** The outcome of evaluating a JavaScript expression that may throw. *)
Inductive Completion (A : Type) : Type :=
| Normal (a : A)
| Throw.
Arguments Normal {A} a.
Arguments Throw {A}.

Definition Completion_bind {A B} (c : Completion A) (k : A -> Completion B)
  : Completion B :=
  match c with
  | Normal a => k a
  | Throw => Throw
  end.

Notation "'try' x := c 'in' k" := (Completion_bind c (fun x => k))
  (at level 10, x name, c at level 100, k at level 200).

(** ** Platform: strings and regular expressions *)

(** [string.substr(pos)] for [0 <= pos]: the suffix from [pos] on, empty
    when [pos] is beyond the end. *)
Fixpoint substr (s : string) (pos : nat) : string :=
  match pos, s with
  | 0, _ => s
  | S p, String _ s' => substr s' p
  | S _, EmptyString => EmptyString
  end.

(** The part of the platform's [RegExp] the matcher uses.
    [RegExp_new pattern flags] is [new RegExp(pattern, flags)], which throws
    a SyntaxError on a malformed pattern; [String_match s r] is [s.match(r)]
    for a regular expression without the [g] flag: [None] for [null],
    otherwise [match.index] and [match[0]]. *)
Record RegExpEngine : Type := {
  RegExp : Type;
  RegExp_new : string -> string -> Completion RegExp;
  String_match : string -> RegExp -> option (nat * string);
}.

(** ** Collaborators *)

(** [Search.SearchConfig.SearchConfig]: what its getters return. *)
Record SearchConfig : Type := {
  query : string;
  queries : list string;
  ignoreCase : bool;
  isRegex : bool;
  filePathMatchesFileQuery : string -> bool;
}.

(** [SDK.NetworkRequest.NameValue] *)
Record NameValue : Type := {
  name : string;
  value : string;
}.

(** [TextUtils.ContentProvider.SearchMatch] *)
Record SearchMatch : Type := {
  lineNumber : Z;
  lineContent : string;
}.

(** [SDK.NetworkRequest.NetworkRequest]: the members the search reads.
    [searchInContent] is the list its promise resolves to;
    [parsedURL] holds [parsedURL.urlWithoutScheme()] when the URL parsed. *)
Record NetworkRequest : Type := {
  url : string;
  displayName : string;
  parsedURL : option string;
  isTextType : bool;
  requestHeaders : list NameValue;
  responseHeaders : list NameValue;
  searchInContent : string -> bool -> bool -> list SearchMatch;
}.

(** ** UIRequestLocation *)

Record UIRequestLocation : Type := {
  request : NetworkRequest;
  requestHeader : option NameValue;
  responseHeader : option NameValue;
  searchMatch : option SearchMatch;
  isUrlMatch : bool;
}.

Module UIRequestLocation.

Definition new (request : NetworkRequest) (requestHeader : option NameValue)
    (responseHeader : option NameValue) (searchMatch : option SearchMatch)
    (urlMatch : bool) : UIRequestLocation :=
  {| request := request;
     requestHeader := requestHeader;
     responseHeader := responseHeader;
     searchMatch := searchMatch;
     isUrlMatch := urlMatch |}.

Definition requestHeaderMatch (request : NetworkRequest)
    (header : option NameValue) : UIRequestLocation :=
  new request header None None false.

Definition responseHeaderMatch (request : NetworkRequest)
    (header : option NameValue) : UIRequestLocation :=
  new request None header None false.

Definition bodyMatch (request : NetworkRequest)
    (searchMatch : option SearchMatch) : UIRequestLocation :=
  new request None None searchMatch false.

Definition urlMatch (request : NetworkRequest) : UIRequestLocation :=
  new request None None None true.

End UIRequestLocation.

(** [1] for a nullable field that holds an object, [0] for [null]. *)
Definition is_set {A} (field : option A) : nat :=
  match field with
  | Some _ => 1
  | None => 0
  end.

(** The number of discriminating fields of a location that are set. *)
Definition fields_set (l : UIRequestLocation) : nat :=
  (if isUrlMatch l then 1 else 0)
  + is_set (requestHeader l)
  + is_set (responseHeader l)
  + is_set (searchMatch l).

(** The four kinds of location the accessors tell apart. *)
Inductive LocationKind : Type :=
| UrlKind
| RequestHeaderKind (header : NameValue)
| ResponseHeaderKind (header : NameValue)
| BodyKind (m : SearchMatch).

(** [l] has exactly the discriminating field of kind [k] set. *)
Definition has_kind (l : UIRequestLocation) (k : LocationKind) : Prop :=
  match k with
  | UrlKind =>
      isUrlMatch l = true /\ requestHeader l = None
      /\ responseHeader l = None /\ searchMatch l = None
  | RequestHeaderKind h =>
      isUrlMatch l = false /\ requestHeader l = Some h
      /\ responseHeader l = None /\ searchMatch l = None
  | ResponseHeaderKind h =>
      isUrlMatch l = false /\ requestHeader l = None
      /\ responseHeader l = Some h /\ searchMatch l = None
  | BodyKind m =>
      isUrlMatch l = false /\ requestHeader l = None
      /\ responseHeader l = None /\ searchMatch l = Some m
  end.

(** ** NetworkSearchResult *)

Record NetworkSearchResult : Type := {
  _request : NetworkRequest;
  _locations : list UIRequestLocation;
}.

(** The value of [matchLabel]: a string, or the number [lineNumber + 1]. *)
Inductive Label : Type :=
| LabelString (s : string)
| LabelNumber (n : Z).

Module NetworkSearchResult.

Definition new (request : NetworkRequest) (locations : list UIRequestLocation)
  : NetworkSearchResult :=
  {| _request := request; _locations := locations |}.

Definition matchesCount (this : NetworkSearchResult) : nat :=
  List.length (_locations this).

Definition label (this : NetworkSearchResult) : string :=
  displayName (_request this).

Definition description (this : NetworkSearchResult) : string :=
  match parsedURL (_request this) with
  | None => url (_request this)
  | Some urlWithoutScheme => urlWithoutScheme
  end.

(** [a || b] on two nullable objects. *)
Definition or_else {A} (a b : option A) : option A :=
  match a with
  | Some _ => a
  | None => b
  end.

(** Reading a property of [undefined] or [null] throws a TypeError. *)
Definition matchLineContent (this : NetworkSearchResult) (index : nat)
  : Completion string :=
  match _locations this !! index with
  | None => Throw
  | Some location =>
      if isUrlMatch location then Normal (url (_request this))
      else
        match or_else (requestHeader location) (responseHeader location) with
        | Some header => Normal (value header)
        | None =>
            match searchMatch location with
            | Some m => Normal (lineContent m)
            | None => Throw
            end
        end
  end.

Definition matchRevealable (this : NetworkSearchResult) (index : nat)
  : option UIRequestLocation :=
  _locations this !! index.

(** [i18nString(UIStrings.url)] is taken in the source language. *)
Definition matchLabel (this : NetworkSearchResult) (index : nat)
  : Completion Label :=
  match _locations this !! index with
  | None => Throw
  | Some location =>
      if isUrlMatch location then Normal (LabelString "URL")
      else
        match or_else (requestHeader location) (responseHeader location) with
        | Some header => Normal (LabelString (name header +:+ ":"))
        | None =>
            match searchMatch location with
            | Some m => Normal (LabelNumber (lineNumber m + 1))
            | None => Throw
            end
        end
  end.

End NetworkSearchResult.

(** ** The matcher of [_searchRequest] *)

Section Matcher.

Context (E : RegExpEngine).

(** [queries.map(query => new RegExp(query, flags))]: the first
    constructor that throws ends the map. *)
Fixpoint compile (flags : string) (queries : list string)
  : Completion (list (RegExp E)) :=
  match queries with
  | [] => Normal []
  | query :: rest =>
      try regExp := RegExp_new E query flags in
      try regExps := compile flags rest in
      Normal (regExp :: regExps)
  end.

(** One turn of the [for] loop of [stringMatchesQuery] at position
    [pos]: [None] is [return false], otherwise the new [pos].
    [!match.index] holds exactly when the index is [0]. *)
Definition turn (s : string) (pos : nat) (regExp : RegExp E) : option nat :=
  match String_match E (substr s pos) regExp with
  | None => None
  | Some (index, match0) =>
      if Nat.eqb index 0 then None
      else Some (pos + (index + String.length match0))
  end.

(** The loop over [regExps]: [None] when a turn returned [false],
    otherwise the position after the last turn. *)
Fixpoint turns (s : string) (regExps : list (RegExp E)) (pos : nat)
  : option nat :=
  match regExps with
  | [] => Some pos
  | regExp :: rest =>
      match turn s pos regExp with
      | None => None
      | Some pos' => turns s rest pos'
      end
  end.

Definition flags_of (searchConfig : SearchConfig) : string :=
  if ignoreCase searchConfig then "i" else "".

(** What the loop over [regExps] makes [stringMatchesQuery] return. *)
Definition goes_through (regExps : list (RegExp E)) (s : string) : bool :=
  match turns s regExps 0 with
  | None => false
  | Some _ => true
  end.

Definition stringMatchesQuery (searchConfig : SearchConfig) (s : string)
  : Completion bool :=
  let flags := flags_of searchConfig in
  try regExps := compile flags (queries searchConfig) in
  Normal (goes_through regExps s).

Definition headerMatchesQuery (searchConfig : SearchConfig)
    (header : NameValue) : Completion bool :=
  stringMatchesQuery searchConfig (name header +:+ ": " +:+ value header).

End Matcher.

(** The rule of the specification, in its words: from a current position,
    for each token pattern in order, the first occurrence at or after the
    current position is searched for, and the position moves behind it.
    [spec_scan E s pos regExps pos'] says that the patterns [regExps], taken
    in order from position [pos] of [s], all have an occurrence and leave
    the position at [pos']. *)
Inductive spec_scan (E : RegExpEngine) (s : string)
  : nat -> list (RegExp E) -> nat -> Prop :=
| spec_scan_done pos : spec_scan E s pos [] pos
| spec_scan_token pos regExp rest index match0 pos' :
    String_match E (substr s pos) regExp = Some (index, match0) ->
    spec_scan E s (pos + (index + String.length match0)) rest pos' ->
    spec_scan E s pos (regExp :: rest) pos'.

(** Matching against the tokens interpreted as regular expressions, in the
    words of the specification.  Every token is made a regular expression
    by [new RegExp(token, flags)], with the flags [i] when case is ignored
    and no flag otherwise, whatever [isRegex()] says:
    [spec_tokens_as_regexps E searchConfig regExps] says that [regExps] are
    these expressions, in the order of the tokens. *)
Definition spec_tokens_as_regexps (E : RegExpEngine)
    (searchConfig : SearchConfig) (regExps : list (RegExp E)) : Prop :=
  Forall2
    (fun token regExp =>
       RegExp_new E token (if ignoreCase searchConfig then "i" else "")
       = Normal regExp)
    (queries searchConfig) regExps.

(** [spec_regexp_scan E s pos regExps]: from position [pos] of [s], each of
    the expressions [regExps] in turn has a match in what is left of the
    string, not at its very start, and the position moves behind the
    match. *)
Inductive spec_regexp_scan (E : RegExpEngine) (s : string)
  : nat -> list (RegExp E) -> Prop :=
| spec_regexp_scan_done pos : spec_regexp_scan E s pos []
| spec_regexp_scan_token pos regExp rest index match0 :
    String_match E (substr s pos) regExp = Some (index, match0) ->
    index <> 0 ->
    spec_regexp_scan E s (pos + (index + String.length match0)) rest ->
    spec_regexp_scan E s pos (regExp :: rest).

(** The string [s] matches the query of [searchConfig], its tokens taken
    as regular expressions. *)
Definition spec_matches_as_regexps (E : RegExpEngine)
    (searchConfig : SearchConfig) (s : string) : Prop :=
  exists regExps,
    spec_tokens_as_regexps E searchConfig regExps
    /\ spec_regexp_scan E s 0 regExps.

(** ** The world of a search run *)

(** The calls the search makes on its collaborators, as they are logged:
    [progress.setTotalWork(n)], [progress.worked()], [progress.done()],
    [request.searchInContent(query, caseSensitive, isRegex)],
    [searchResultCallback(result)] and [searchFinishedCallback(flag)]. *)
Inductive Event : Type :=
| SetTotalWork (totalWork : nat)
| Worked
| Done
| SearchInContent (request : NetworkRequest) (query : string)
    (caseSensitive : bool) (isRegex : bool)
| SearchResultCallback (result : NetworkSearchResult)
| SearchFinishedCallback (finished : bool).

(** [Common.Progress.Progress]: the answer of [isCanceled()] merely depends
    on how many times it has been asked; any behaviour of a progress
    object during one run is one such sequence of answers. *)
Record Progress : Type := {
  isCanceled : nat -> bool;
}.

Record World : Type := {
  polls : nat;
  log : list Event;
}.

Definition Eff (A : Type) : Type := World -> A * World.

Definition ret {A} (a : A) : Eff A := fun w => (a, w).

Definition bind {A B} (m : Eff A) (k : A -> Eff B) : Eff B :=
  fun w => let (a, w') := m w in k a w'.

Notation "'do' x <- m ; k" := (bind m (fun x => k))
  (at level 10, x name, m at level 100, k at level 200).

Notation "m ;; k" := (bind m (fun _ => k))
  (at level 100, k at level 200, right associativity).

Definition emit (e : Event) : Eff unit :=
  fun w => (tt, {| polls := polls w; log := log w ++ [e] |}).

Definition poll (progress : Progress) : Eff bool :=
  fun w => (isCanceled progress (polls w),
            {| polls := S (polls w); log := log w |}).

Definition initial : World := {| polls := 0; log := [] |}.

(** [array.push(x)] *)
Definition push {A} (array : list A) (x : A) : list A := array ++ [x].

(** [array.sort(comparefn)]: the sort is stable, and the comparison function
    says that [x] goes after [y] by a positive number.  Insertion from the
    right is one stable sort. *)
Fixpoint sort_insert {A} (comparefn : A -> A -> Z) (x : A) (sorted : list A)
  : list A :=
  match sorted with
  | [] => [x]
  | y :: rest =>
      if (comparefn x y <=? 0)%Z then x :: sorted
      else y :: sort_insert comparefn x rest
  end.

Definition Array_sort {A} (comparefn : A -> A -> Z) (array : list A) : list A :=
  foldr (sort_insert comparefn) [] array.

(** A promise returned by [_searchRequest]: still waiting at its [await]
    for the body matches that [searchInContent] resolves to, or settled. *)
Inductive Promise : Type :=
| Awaiting (request : NetworkRequest) (bodyMatches : list SearchMatch)
| Settled (c : Completion (option NetworkSearchResult)).

(** [Promise.all(promises)] once no more tasks run: rejected as soon as one
    promise is, pending while one is, else the values in the order of
    [promises]. *)
Inductive Joined : Type :=
| StillPending
| Rejected
| Fulfilled (values : list (option NetworkSearchResult)).

Fixpoint Promise_all (promises : list Promise) : Joined :=
  match promises with
  | [] => Fulfilled []
  | promise :: rest =>
      match promise, Promise_all rest with
      | Settled Throw, _ => Rejected
      | _, Rejected => Rejected
      | Awaiting _ _, _ => StillPending
      | _, StillPending => StillPending
      | Settled (Normal v), Fulfilled values => Fulfilled (v :: values)
      end
  end.

(** How the promise of [performSearch] ends. *)
Inductive Outcome : Type :=
| NeverSettles
| Rejects
| Resolves.

(** ** NetworkSearchScope *)

Section NetworkSearchScope.

Context (E : RegExpEngine) (localeCompare : string -> string -> Z).
Context (searchConfig : SearchConfig) (progress : Progress).

(** The [for] loops over the headers. *)
Fixpoint for_headers (location_of : NameValue -> UIRequestLocation)
    (headers : list NameValue) (locations : list UIRequestLocation)
  : Completion (list UIRequestLocation) :=
  match headers with
  | [] => Normal locations
  | header :: rest =>
      try matches := headerMatchesQuery E searchConfig header in
      for_headers location_of rest
        (if matches then push locations (location_of header) else locations)
  end.

(** The [for] loop over the body matches. *)
Fixpoint for_bodyMatches (request : NetworkRequest)
    (bodyMatches : list SearchMatch) (locations : list UIRequestLocation)
  : list UIRequestLocation :=
  match bodyMatches with
  | [] => locations
  | m :: rest =>
      for_bodyMatches request rest
        (push locations (UIRequestLocation.bodyMatch request (Some m)))
  end.

(** [_searchRequest] from [const locations = []] to the last loop. *)
Definition collect_locations (request : NetworkRequest)
    (bodyMatches : list SearchMatch) : Completion (list UIRequestLocation) :=
  let locations := [] in
  try matches := stringMatchesQuery E searchConfig (url request) in
  let locations :=
    if matches then push locations (UIRequestLocation.urlMatch request)
    else locations in
  try locations :=
    for_headers (fun header =>
        UIRequestLocation.requestHeaderMatch request (Some header))
      (requestHeaders request) locations in
  try locations :=
    for_headers (fun header =>
        UIRequestLocation.responseHeaderMatch request (Some header))
      (responseHeaders request) locations in
  Normal (for_bodyMatches request bodyMatches locations).

(** [_searchRequest] from the check of [progress.isCanceled()] on: what
    runs once [bodyMatches] is known. *)
Definition _searchRequest_continue (request : NetworkRequest)
    (bodyMatches : list SearchMatch)
  : Eff (Completion (option NetworkSearchResult)) :=
  do canceled <- poll progress;
  if canceled then ret (Normal None)
  else
    match collect_locations request bodyMatches with
    | Throw => ret Throw
    | Normal locations =>
        emit Worked;;
        ret (Normal (Some (NetworkSearchResult.new request locations)))
    end.

(** The call [this._searchRequest(searchConfig, request, progress)]: an
    async function runs up to its first [await].  A request of a text
    type calls [searchInContent] and waits; any other request has no
    [await] on its path and runs to its end within the call. *)
Definition _searchRequest (request : NetworkRequest) : Eff Promise :=
  if isTextType request then
    let caseSensitive := negb (ignoreCase searchConfig) in
    emit (SearchInContent request (query searchConfig) caseSensitive
            (isRegex searchConfig));;
    ret (Awaiting request
           (searchInContent request (query searchConfig) caseSensitive
              (isRegex searchConfig)))
  else
    do c <- _searchRequest_continue request [];
    ret (Settled c).

(** The [for] loop of [performSearch] that starts the tasks. *)
Fixpoint for_requests (requests : list NetworkRequest)
    (promises : list Promise) : Eff (list Promise) :=
  match requests with
  | [] => ret promises
  | request :: rest =>
      do promise <- _searchRequest request;
      for_requests rest (push promises promise)
  end.

(** The task of promise [i] runs on from its [await]; an index that names
    no waiting task changes nothing. *)
Definition resume (promises : list Promise) (i : nat) : Eff (list Promise) :=
  match promises !! i with
  | Some (Awaiting request bodyMatches) =>
      do c <- _searchRequest_continue request bodyMatches;
      ret (<[i := Settled c]> promises)
  | _ => ret promises
  end.

(** While [performSearch] waits at [await Promise.all(promises)] the
    waiting tasks run on in the order [schedule], the order in which
    their body searches resolve. *)
Fixpoint run_tasks (schedule : list nat) (promises : list Promise)
  : Eff (list Promise) :=
  match schedule with
  | [] => ret promises
  | i :: rest =>
      do promises <- resume promises i;
      run_tasks rest promises
  end.

Definition candidates (networkLog : list NetworkRequest)
  : list NetworkRequest :=
  List.filter (fun request =>
      filePathMatchesFileQuery searchConfig (url request)) networkLog.

(** [performSearch] up to the moment [Promise.all] is decided. *)
Definition performSearch_tasks (networkLog : list NetworkRequest)
    (schedule : list nat) : Eff (list Promise) :=
  let promises := [] in
  let requests := candidates networkLog in
  emit (SetTotalWork (List.length requests));;
  do promises <- for_requests requests promises;
  run_tasks schedule promises.

Definition compare_labels (r1 r2 : NetworkSearchResult) : Z :=
  localeCompare (NetworkSearchResult.label r1) (NetworkSearchResult.label r2).

(** The [for] loop over the sorted results. *)
Fixpoint for_results (results : list NetworkSearchResult) : Eff unit :=
  match results with
  | [] => ret tt
  | result :: rest =>
      (if 0 <? NetworkSearchResult.matchesCount result
       then emit (SearchResultCallback result)
       else ret tt);;
      for_results rest
  end.

(** [performSearch] from [await Promise.all(promises)] on. *)
Definition performSearch_join (promises : list Promise) : Eff Outcome :=
  match Promise_all promises with
  | StillPending => ret NeverSettles
  | Rejected => ret Rejects
  | Fulfilled resultsWithNull =>
      let results := omap id resultsWithNull in
      do canceled <- poll progress;
      if canceled then
        emit (SearchFinishedCallback false);;
        ret Resolves
      else
        for_results (Array_sort compare_labels results);;
        emit Done;;
        emit (SearchFinishedCallback true);;
        ret Resolves
  end.

(** [networkLog] is [SDK.NetworkLog.NetworkLog.instance().requests()]. *)
Definition performSearch (networkLog : list NetworkRequest)
    (schedule : list nat) : Eff Outcome :=
  do promises <- performSearch_tasks networkLog schedule;
  performSearch_join promises.

End NetworkSearchScope.

(** ** A regular-expression engine for a fragment of the pattern language

    Patterns made of ASCII pattern characters, [.] and escaped syntax
    characters, with the flags [""] and ["i"].  On these the engine behaves
    as the platform's does.  Every other pattern is refused by the
    constructor, also those the platform accepts: the engine instantiates
    the statements below, which hold for every engine. *)
Module Fragment.

Inductive Atom : Type :=
| PatternCharacter (c : ascii)
| AnyCharacter.

Record t : Type := {
  atoms : list Atom;
  ignore_case : bool;
}.

Definition code (c : ascii) : nat := nat_of_ascii c.

(** SyntaxCharacter :: one of [^ $ \ . * + ? ( ) [ ] { } |] *)
Definition syntax_character (c : ascii) : bool :=
  existsb (Ascii.eqb c)
    (list_ascii_of_string "^$\.*+?()[]{}|").

Fixpoint parse (pattern : string) : option (list Atom) :=
  match pattern with
  | EmptyString => Some []
  | String c rest =>
      if Ascii.eqb c "\" then
        match rest with
        | EmptyString => None
        | String escaped rest' =>
            if syntax_character escaped
            then cons (PatternCharacter escaped) <$> parse rest'
            else None
        end
      else if Ascii.eqb c "." then cons AnyCharacter <$> parse rest
      else if syntax_character c then None
      else if 128 <=? code c then None
      else cons (PatternCharacter c) <$> parse rest
  end.

Definition parse_flags (flags : string) : option bool :=
  if String.eqb flags "" then Some false
  else if String.eqb flags "i" then Some true
  else None.

Definition create (pattern flags : string) : Completion t :=
  match parse pattern, parse_flags flags with
  | Some atoms, Some ignore_case =>
      Normal {| atoms := atoms; ignore_case := ignore_case |}
  | _, _ => Throw
  end.

(** Canonicalize of an ASCII character under the [i] flag. *)
Definition upper (c : ascii) : ascii :=
  if (97 <=? code c) && (code c <=? 122) then ascii_of_nat (code c - 32)
  else c.

Definition line_terminator (c : ascii) : bool :=
  (code c =? 10) || (code c =? 13).

Definition atom_matches (ignore_case : bool) (a : Atom) (c : ascii) : bool :=
  match a with
  | PatternCharacter p =>
      if ignore_case then Ascii.eqb (upper p) (upper c) else Ascii.eqb p c
  | AnyCharacter => negb (line_terminator c)
  end.

(** The text the atoms match at the start of [s], if they do. *)
Fixpoint match_here (ignore_case : bool) (atoms : list Atom) (s : string)
  : option string :=
  match atoms with
  | [] => Some EmptyString
  | a :: atoms' =>
      match s with
      | EmptyString => None
      | String c s' =>
          if atom_matches ignore_case a c
          then String c <$> match_here ignore_case atoms' s'
          else None
      end
  end.

(** The leftmost match in [s], whose first character has index [index]. *)
Fixpoint search (ignore_case : bool) (atoms : list Atom) (s : string)
    (index : nat) : option (nat * string) :=
  match match_here ignore_case atoms s with
  | Some match0 => Some (index, match0)
  | None =>
      match s with
      | EmptyString => None
      | String _ s' => search ignore_case atoms s' (S index)
      end
  end.

Definition engine : RegExpEngine :=
  {| RegExp := t;
     RegExp_new := create;
     String_match := fun s r => search (ignore_case r) (atoms r) s 0 |}.

(** The comparison of strings by code units: a consistent comparison
    function, which orders the labels of the examples as their letters. *)
Definition compare_code_units (s1 s2 : string) : Z :=
  match String.compare s1 s2 with
  | Lt => (-1)%Z
  | Eq => 0%Z
  | Gt => 1%Z
  end.

End Fragment.

(** ** Runs used as examples *)
Module Examples.

Definition config_with (isRegex : bool) (tokens : list string)
  : SearchConfig :=
  {| query := String.concat " " tokens;
     queries := tokens;
     ignoreCase := false;
     isRegex := isRegex;
     filePathMatchesFileQuery := fun _ => true |}.

(** A plain-text query: [isRegex()] is [false]. *)
Definition config : list string -> SearchConfig := config_with false.

Definition never_canceled : Progress := {| isCanceled := fun _ => false |}.
Definition canceled : Progress := {| isCanceled := fun _ => true |}.
(** Cancelled after [n] calls of [isCanceled()]. *)
Definition canceled_after (n : nat) : Progress :=
  {| isCanceled := fun k => n <=? k |}.

(** A script: its URL, one request header and one line of its body hold
    the token [foo]; its response header does not. *)
Definition accept : NameValue := {| name := "Accept"; value := "text/foo" |}.
Definition server : NameValue := {| name := "Server"; value := "nginx" |}.
Definition line3 : SearchMatch :=
  {| lineNumber := 3; lineContent := "var foo = 1;" |}.

Definition script (label : string) : NetworkRequest :=
  {| url := "https://site.test/foo/" +:+ label;
     displayName := label;
     parsedURL := Some ("site.test/foo/" +:+ label);
     isTextType := true;
     requestHeaders := [accept];
     responseHeaders := [server];
     searchInContent := fun _ _ _ => [line3] |}.

(** An image: nothing in it holds the token. *)
Definition image : NetworkRequest :=
  {| url := "https://site.test/logo.png";
     displayName := "logo.png";
     parsedURL := Some "site.test/logo.png";
     isTextType := false;
     requestHeaders := [];
     responseHeaders := [server];
     searchInContent := fun _ _ _ => [] |}.

(** The result of the search of [script label] for the token [foo]. *)
Definition script_result (label : string) : NetworkSearchResult :=
  NetworkSearchResult.new (script label)
    [UIRequestLocation.urlMatch (script label);
     UIRequestLocation.requestHeaderMatch (script label) (Some accept);
     UIRequestLocation.bodyMatch (script label) (Some line3)].

Definition run (tokens : list string) (progress : Progress)
    (networkLog : list NetworkRequest) (schedule : list nat)
  : Outcome * World :=
  performSearch Fragment.engine Fragment.compare_code_units
    (config tokens) progress networkLog schedule initial.

(** Two documents of the same name in different folders. *)
Definition page (folder : string) : NetworkRequest :=
  {| url := "https://site.test/" +:+ folder +:+ "/foo.html";
     displayName := "foo.html";
     parsedURL := None;
     isTextType := false;
     requestHeaders := [];
     responseHeaders := [];
     searchInContent := fun _ _ _ => [] |}.

Definition page_result (folder : string) : NetworkSearchResult :=
  NetworkSearchResult.new (page folder)
    [UIRequestLocation.urlMatch (page folder)].

End Examples.

(** The order of the match locations of one candidate, in the words of the
    specification: the URL match if any, then the matching request headers
    in their given order, then the matching response headers in their given
    order, then the body matches in their order of discovery.  [matches]
    says which strings match the query. *)
Definition spec_discovery_order (matches : string -> bool)
    (request : NetworkRequest) (bodyMatches : list SearchMatch)
  : list UIRequestLocation :=
  let matching :=
    List.filter (fun header =>
      matches (name header +:+ ": " +:+ value header)) in
  (if matches (url request) then [UIRequestLocation.urlMatch request] else [])
  ++ map (fun header =>
            UIRequestLocation.requestHeaderMatch request (Some header))
       (matching (requestHeaders request))
  ++ map (fun header =>
            UIRequestLocation.responseHeaderMatch request (Some header))
       (matching (responseHeaders request))
  ++ map (fun m => UIRequestLocation.bodyMatch request (Some m)) bodyMatches.

(** What the accessors return for a location of a given kind, in the words
    of the specification. *)
Definition spec_lineContent (this : NetworkSearchResult) (k : LocationKind)
  : string :=
  match k with
  | UrlKind => url (_request this)
  | RequestHeaderKind header | ResponseHeaderKind header => value header
  | BodyKind m => lineContent m
  end.

Definition spec_label (k : LocationKind) : Label :=
  match k with
  | UrlKind => LabelString "URL"
  | RequestHeaderKind header | ResponseHeaderKind header =>
      LabelString (name header +:+ ":")
  | BodyKind m => LabelNumber (lineNumber m + 1)
  end.

(** A location resolves to the kind [k]: exactly one discriminating field
    is set, the one of [k], and the accessors of every result that holds
    the location return what the specification says for that kind. *)
Definition resolves_to (l : UIRequestLocation) (k : LocationKind) : Prop :=
  fields_set l = 1
  /\ has_kind l k
  /\ (forall k', has_kind l k' -> k' = k)
  /\ (forall this index,
        _locations this !! index = Some l ->
        NetworkSearchResult.matchLineContent this index
        = Normal (spec_lineContent this k)
        /\ NetworkSearchResult.matchLabel this index = Normal (spec_label k)).

(** ** Observations on a log *)

Definition is_Worked (e : Event) : bool :=
  match e with Worked => true | _ => false end.

(** The calls of the two callbacks, in order. *)
Definition is_callback (e : Event) : bool :=
  match e with
  | SearchResultCallback _ | SearchFinishedCallback _ => true
  | _ => false
  end.

(** The results handed to [searchResultCallback], in order. *)
Definition delivered (events : list Event) : list NetworkSearchResult :=
  omap (fun e => match e with SearchResultCallback r => Some r | _ => None end)
    events.

(** The arguments of the calls of [searchFinishedCallback], in order. *)
Definition finished (events : list Event) : list bool :=
  omap (fun e => match e with SearchFinishedCallback b => Some b | _ => None end)
    events.

Definition worked_calls (events : list Event) : nat :=
  List.length (List.filter is_Worked events).

Definition totalWork_calls (events : list Event) : list nat :=
  omap (fun e => match e with SetTotalWork n => Some n | _ => None end) events.

(** [x] may come before [y] in an array sorted with [comparefn]. *)
Definition comes_before {A} (comparefn : A -> A -> Z) (x y : A) : Prop :=
  (comparefn x y <= 0)%Z.

(** [x] and [y] are tied: neither has to come after the other. *)
Definition tied {A} (comparefn : A -> A -> Z) (x y : A) : bool :=
  ((comparefn x y <=? 0)%Z && (comparefn y x <=? 0)%Z)%bool.

(** The events of the per-candidate searches. *)
Definition task_event (e : Event) : bool :=
  match e with
  | Worked | SearchInContent _ _ _ _ => true
  | _ => false
  end.

Definition count {A} (f : A -> bool) (l : list A) : nat :=
  List.length (List.filter f l).

(** The states of a per-candidate search: settled; returned a result;
    returned [null], which it does when it finds the search cancelled. *)
Definition settled (p : Promise) : bool :=
  match p with
  | Settled _ => true
  | Awaiting _ _ => false
  end.

Definition returned_result (p : Promise) : bool :=
  match p with
  | Settled (Normal (Some _)) => true
  | _ => false
  end.

Definition returned_null (p : Promise) : bool :=
  match p with
  | Settled (Normal None) => true
  | _ => false
  end.

(** What holds of the promises and the world while the tasks run, from the
    world [w0] on: only task events are logged, one [Worked] per task that
    returned a result; [isCanceled()] was called once per settled task; a
    task returned [null] only on an answer [true]. *)
Definition tasks_invariant (progress : Progress) (w0 : World)
    (promises : list Promise) (w : World) : Prop :=
  (exists events,
     log w = log w0 ++ events
     /\ Forall (fun e => task_event e = true) events
     /\ worked_calls events = count returned_result promises)
  /\ polls w = polls w0 + count settled promises
  /\ (forall p, p ∈ promises -> returned_null p = true ->
      exists k, polls w0 <= k < polls w /\ isCanceled progress k = true).

(** The body matches the search of a candidate works with. *)
Definition bodyMatches_of (searchConfig : SearchConfig)
    (request : NetworkRequest) : list SearchMatch :=
  if isTextType request then
    searchInContent request (query searchConfig)
      (negb (ignoreCase searchConfig)) (isRegex searchConfig)
  else [].

(** What the search of a candidate settles to when it does not find the
    search cancelled. *)
Definition uncanceled_search (E : RegExpEngine) (searchConfig : SearchConfig)
    (request : NetworkRequest) : Completion (option NetworkSearchResult) :=
  match collect_locations E searchConfig request
          (bodyMatches_of searchConfig request) with
  | Throw => Throw
  | Normal locations =>
      Normal (Some (NetworkSearchResult.new request locations))
  end.

(** The states the promise of the search of [request] goes through. *)
Definition task_of (E : RegExpEngine) (searchConfig : SearchConfig)
    (request : NetworkRequest) (p : Promise) : Prop :=
  p = Awaiting request (bodyMatches_of searchConfig request)
  \/ p = Settled (Normal None)
  \/ p = Settled (uncanceled_search E searchConfig request).

(** The calls of the callbacks that [performSearch] makes after the tasks,
    when these returned [values] and [isCanceled()] then answers
    [canceled]. *)
Definition join_events (localeCompare : string -> string -> Z)
    (values : list (option NetworkSearchResult)) (canceled : bool)
  : list Event :=
  if canceled then [SearchFinishedCallback false]
  else
    map SearchResultCallback
      (List.filter (fun result => 0 <? NetworkSearchResult.matchesCount result)
         (Array_sort (compare_labels localeCompare) (omap id values)))
    ++ [Done; SearchFinishedCallback true].

(** ** The rest of the search scope *)

(** [performIndexing]: the call queues a microtask and returns; the
    microtask calls [progress.done()] when it runs.  The value is the
    queue of microtasks the call leaves behind. *)
Definition performIndexing : Eff (list (Eff unit)) :=
  ret [emit Done].

(** [stopSearch] has an empty body. *)
Definition stopSearch : Eff unit := ret tt.

(** The calls of [searchInContent] in a log, with their arguments, in
    order. *)
Definition body_searches (events : list Event)
  : list (NetworkRequest * string * bool * bool) :=
  omap (fun e =>
          match e with
          | SearchInContent request q caseSensitive regex =>
              Some (request, q, caseSensitive, regex)
          | _ => None
          end) events.

(** The number of calls of [progress.done()] in a log. *)
Definition done_calls (events : list Event) : nat :=
  count (fun e => match e with Done => true | _ => false end) events.

(** The value [Promise.all] holds for a candidate whose search is not
    cancelled and does not throw. *)
Definition search_value (E : RegExpEngine) (searchConfig : SearchConfig)
    (request : NetworkRequest) : option NetworkSearchResult :=
  match uncanceled_search E searchConfig request with
  | Normal v => v
  | Throw => None
  end.

(** The results [performSearch] hands to [searchResultCallback] when it
    is not cancelled, from the values of the tasks. *)
Definition surfaced (localeCompare : string -> string -> Z)
    (values : list (option NetworkSearchResult)) : list NetworkSearchResult :=
  List.filter (fun result => 0 <? NetworkSearchResult.matchesCount result)
    (Array_sort (compare_labels localeCompare) (omap id values)).

(** The schedule resumes every task that waits: the tasks of the
    candidates of a text type. *)
Definition resumes_all (searchConfig : SearchConfig)
    (networkLog : list NetworkRequest) (schedule : list nat) : Prop :=
  forall i request,
    candidates searchConfig networkLog !! i = Some request ->
    isTextType request = true ->
    i ∈ schedule.

(** The engine reports a match where it is: the match is a piece of the
    string, and [index] characters come before it. *)
Definition sound_engine (E : RegExpEngine) : Prop :=
  forall s r index match0,
    String_match E s r = Some (index, match0) ->
    exists before after,
      s = before +:+ match0 +:+ after /\ String.length before = index.

(** The string made of the pieces, each a gap and the match behind it, and
    of what follows the last piece. *)
Fixpoint weave (pieces : list (string * string)) (rest : string) : string :=
  match pieces with
  | [] => rest
  | (gap, match0) :: pieces' => gap +:+ match0 +:+ weave pieces' rest
  end.

(** ** Issue kinds (IssueKindView.ts) *)

(** [IssuesManager.Issue.IssueKind]: the members the sources name; the
    [switch] of [getClassNameFromKind] has an arm for each and no
    default. *)
Inductive IssueKind : Type :=
| PageError
| BreakingChange
| Improvement.

Definition IssueKind_eqb (k1 k2 : IssueKind) : bool :=
  match k1, k2 with
  | PageError, PageError
  | BreakingChange, BreakingChange
  | Improvement, Improvement => true
  | _, _ => false
  end.

(** [IssueKindView]: the kind the tree element is made for and the text
    of its counter ([issueCount.textContent]); the other DOM nodes are not
    part of the embedding. *)
Record IssueKindView : Type := {
  kind : IssueKind;
  issueCount : string;
}.

Definition getKind (this : IssueKindView) : IssueKind := kind this.

Definition issueKindViewSortPriority (a b : IssueKindView) : Z :=
  if IssueKind_eqb (getKind a) (getKind b) then 0%Z
  else if IssueKind_eqb (getKind a) PageError then (-1)%Z
  else if (IssueKind_eqb (getKind a) BreakingChange
           && IssueKind_eqb (getKind b) Improvement)%bool then (-1)%Z
  else 1%Z.

Definition getClassNameFromKind (kind : IssueKind) : string :=
  match kind with
  | BreakingChange => "breaking-changes"
  | Improvement => "improvements"
  | PageError => "page-errors"
  end.

(** The place of a kind in the order of the kind views. *)
Definition kind_rank (k : IssueKind) : nat :=
  match k with
  | PageError => 0
  | BreakingChange => 1
  | Improvement => 2
  end.

(** ** DeprecationIssue (models/issues_manager/DeprecationIssue.ts) *)

Module DeprecationIssue.

(** [Protocol.Audits.DeprecationIssueType]: the members the [switch] of
    [getDescription] lists, and [OtherType] for any member it does not
    list. *)
Inductive DeprecationIssueType : Type :=
| AuthorizationCoveredByWildcard
| CanRequestURLHTTPContainingNewline
| ChromeLoadTimesConnectionInfo
| ChromeLoadTimesFirstPaintAfterLoadTime
| ChromeLoadTimesWasAlternateProtocolAvailable
| CookieWithTruncatingChar
| CrossOriginAccessBasedOnDocumentDomain
| CrossOriginWindowAlert
| CrossOriginWindowConfirm
| CSSSelectorInternalMediaControlsOverlayCastButton
| DeprecationExample
| DocumentDomainSettingWithoutOriginAgentClusterHeader
| EventPath
| ExpectCTHeader
| GeolocationInsecureOrigin
| GeolocationInsecureOriginDeprecatedNotRemoved
| GetUserMediaInsecureOrigin
| HostCandidateAttributeGetter
| IdentityInCanMakePaymentEvent
| InsecurePrivateNetworkSubresourceRequest
| LocalCSSFileExtensionRejected
| MediaSourceAbortRemove
| MediaSourceDurationTruncatingBuffered
| NoSysexWebMIDIWithoutPermission
| NotificationInsecureOrigin
| NotificationPermissionRequestedIframe
| ObsoleteWebRtcCipherSuite
| ObsoleteCreateImageBitmAPImageOrientationNone
| OpenWebDatabaseInsecureContext
| PaymentInstruments
| PaymentRequestCSPViolation
| PersistentQuotaType
| PictureSourceSrc
| PrefixedCancelAnimationFrame
| PrefixedRequestAnimationFrame
| PrefixedStorageInfo
| PrefixedVideoDisplayingFullscreen
| PrefixedVideoEnterFullScreen
| PrefixedVideoEnterFullscreen
| PrefixedVideoExitFullScreen
| PrefixedVideoExitFullscreen
| PrefixedVideoSupportsFullscreen
| PrivacySandboxExtensionsAPI
| RangeExpand
| RequestedSubresourceWithEmbeddedCredentials
| OverflowVisibleOnReplacedElement
| RTCConstraintEnableDtlsSrtpFalse
| RTCConstraintEnableDtlsSrtpTrue
| RTCPeerConnectionComplexPlanBSdpUsingDefaultSdpSemantics
| RTCPeerConnectionSdpSemanticsPlanB
| RtcpMuxPolicyNegotiate
| SharedArrayBufferConstructedWithoutIsolation
| TextToSpeech_DisallowedByAutoplay
| V8SharedArrayBufferConstructedInExtensionWithoutIsolation
| XHRJSONEncodingDetection
| XMLHttpRequestSynchronousInNonWorkerOutsideBeforeUnload
| XRSupportsSession
| OtherType (name : string).

(** A value put in for a placeholder of a message. *)
Inductive Value : Type :=
| Text (s : string)
| Number (n : Z).

(** A lazily localized string: [() => ''], or [i18nLazyString] of a member
    of [UIStrings] with the values of its placeholders. *)
Inductive Message : Type :=
| EmptyMessage
| Localized (member : string) (values : list (string * Value)).

Record Link : Type := {
  link : string;
  linkTitle : Message;
}.

(** The argument of [resolveLazyDescription]. *)
Record LazyMarkdownIssueDescription : Type := {
  file : string;
  substitutions : list (string * Message);
  links : list Link;
}.

(** [`${n}`] for an integer [n] below [10^21] in absolute value. *)
Definition Number_toString (n : Z) : string :=
  NilZero.string_of_int (Z.to_int n).

(** The [switch] of [getDescription]: [messageFunction], [feature] and
    [milestone] after it. *)
Definition getDescription_switch (type : DeprecationIssueType)
  : Message * Z * Z :=
  match type with
  | AuthorizationCoveredByWildcard =>
      (Localized "authorizationCoveredByWildcard" [],
       0, 97)
  | CanRequestURLHTTPContainingNewline =>
      (Localized "canRequestURLHTTPContainingNewline" [],
       5735596811091968, 0)
  | ChromeLoadTimesConnectionInfo =>
      (Localized "chromeLoadTimesConnectionInfo" [],
       5637885046816768, 0)
  | ChromeLoadTimesFirstPaintAfterLoadTime =>
      (Localized "chromeLoadTimesFirstPaintAfterLoadTime" [],
       5637885046816768, 0)
  | ChromeLoadTimesWasAlternateProtocolAvailable =>
      (Localized "chromeLoadTimesWasAlternateProtocolAvailable" [],
       5637885046816768, 0)
  | CookieWithTruncatingChar =>
      (Localized "cookieWithTruncatingChar" [],
       0, 103)
  | CrossOriginAccessBasedOnDocumentDomain =>
      (Localized "crossOriginAccessBasedOnDocumentDomain" [],
       0, 109)
  | CrossOriginWindowAlert =>
      (Localized "crossOriginWindowApi" [("PH1", Text "window.alert")],
       0, 0)
  | CrossOriginWindowConfirm =>
      (Localized "crossOriginWindowApi" [("PH1", Text "window.confirm")],
       0, 0)
  | CSSSelectorInternalMediaControlsOverlayCastButton =>
      (Localized "cssSelectorInternalMediaControlsOverlayCastButton" [],
       5714245488476160, 0)
  | DeprecationExample =>
      (Localized "deprecationExample" [],
       5684289032159232, 100)
  | DocumentDomainSettingWithoutOriginAgentClusterHeader =>
      (Localized "documentDomainSettingWithoutOriginAgentClusterHeader" [],
       0, 109)
  | EventPath =>
      (Localized "eventPath" [],
       5726124632965120, 109)
  | ExpectCTHeader =>
      (Localized "expectCTHeader" [],
       6244547273687040, 107)
  | GeolocationInsecureOrigin =>
      (Localized "geolocationInsecureOrigin" [],
       0, 0)
  | GeolocationInsecureOriginDeprecatedNotRemoved =>
      (Localized "geolocationInsecureOriginDeprecatedNotRemoved" [],
       0, 0)
  | GetUserMediaInsecureOrigin =>
      (Localized "getUserMediaInsecureOrigin" [],
       0, 0)
  | HostCandidateAttributeGetter =>
      (Localized "hostCandidateAttributeGetter" [],
       0, 0)
  | IdentityInCanMakePaymentEvent =>
      (Localized "identityInCanMakePaymentEvent" [],
       5190978431352832, 0)
  | InsecurePrivateNetworkSubresourceRequest =>
      (Localized "insecurePrivateNetworkSubresourceRequest" [],
       5436853517811712, 92)
  | LocalCSSFileExtensionRejected =>
      (Localized "localCSSFileExtensionRejected" [],
       0, 64)
  | MediaSourceAbortRemove =>
      (Localized "mediaSourceAbortRemove" [],
       6107495151960064, 0)
  | MediaSourceDurationTruncatingBuffered =>
      (Localized "mediaSourceDurationTruncatingBuffered" [],
       6107495151960064, 0)
  | NoSysexWebMIDIWithoutPermission =>
      (Localized "noSysexWebMIDIWithoutPermission" [],
       5138066234671104, 82)
  | NotificationInsecureOrigin =>
      (Localized "notificationInsecureOrigin" [],
       0, 0)
  | NotificationPermissionRequestedIframe =>
      (Localized "notificationPermissionRequestedIframe" [],
       6451284559265792, 0)
  | ObsoleteWebRtcCipherSuite =>
      (Localized "obsoleteWebRtcCipherSuite" [],
       0, 81)
  | ObsoleteCreateImageBitmAPImageOrientationNone =>
      (Localized "obsoleteCreateImageBitmAPImageOrientationNone" [],
       0, 111)
  | OpenWebDatabaseInsecureContext =>
      (Localized "openWebDatabaseInsecureContext" [],
       5175124599767040, 105)
  | PaymentInstruments =>
      (Localized "paymentInstruments" [],
       5099285054488576, 0)
  | PaymentRequestCSPViolation =>
      (Localized "paymentRequestCSPViolation" [],
       6286595631087616, 0)
  | PersistentQuotaType =>
      (Localized "persistentQuotaType" [],
       5176235376246784, 106)
  | PictureSourceSrc =>
      (Localized "pictureSourceSrc" [],
       0, 0)
  | PrefixedCancelAnimationFrame =>
      (Localized "vendorSpecificApi" [("PH1", Text "webkitCancelAnimationFrame"); ("PH2", Text "cancelAnimationFrame")],
       0, 0)
  | PrefixedRequestAnimationFrame =>
      (Localized "vendorSpecificApi" [("PH1", Text "webkitRequestAnimationFrame"); ("PH2", Text "requestAnimationFrame")],
       0, 0)
  | PrefixedStorageInfo =>
      (Localized "prefixedStorageInfo" [],
       0, 0)
  | PrefixedVideoDisplayingFullscreen =>
      (Localized "deprecatedWithReplacement" [("PH1", Text "HTMLVideoElement.webkitDisplayingFullscreen"); ("PH2", Text "Document.fullscreenElement")],
       0, 0)
  | PrefixedVideoEnterFullScreen =>
      (Localized "deprecatedWithReplacement" [("PH1", Text "HTMLVideoElement.webkitEnterFullScreen()"); ("PH2", Text "Element.requestFullscreen()")],
       0, 0)
  | PrefixedVideoEnterFullscreen =>
      (Localized "deprecatedWithReplacement" [("PH1", Text "HTMLVideoElement.webkitEnterFullscreen()"); ("PH2", Text "Element.requestFullscreen()")],
       0, 0)
  | PrefixedVideoExitFullScreen =>
      (Localized "deprecatedWithReplacement" [("PH1", Text "HTMLVideoElement.webkitExitFullScreen()"); ("PH2", Text "Document.exitFullscreen()")],
       0, 0)
  | PrefixedVideoExitFullscreen =>
      (Localized "deprecatedWithReplacement" [("PH1", Text "HTMLVideoElement.webkitExitFullscreen()"); ("PH2", Text "Document.exitFullscreen()")],
       0, 0)
  | PrefixedVideoSupportsFullscreen =>
      (Localized "deprecatedWithReplacement" [("PH1", Text "HTMLVideoElement.webkitSupportsFullscreen"); ("PH2", Text "Document.fullscreenEnabled")],
       0, 0)
  | PrivacySandboxExtensionsAPI =>
      (Localized "privacySandboxExtensionsAPI" [],
       0, 113)
  | RangeExpand =>
      (Localized "deprecatedWithReplacement" [("PH1", Text "Range.expand()"); ("PH2", Text "Selection.modify()")],
       0, 0)
  | RequestedSubresourceWithEmbeddedCredentials =>
      (Localized "requestedSubresourceWithEmbeddedCredentials" [],
       5669008342777856, 0)
  | OverflowVisibleOnReplacedElement =>
      (Localized "overflowVisibleOnReplacedElement" [],
       5137515594383360, 108)
  | RTCConstraintEnableDtlsSrtpFalse =>
      (Localized "rtcConstraintEnableDtlsSrtpFalse" [],
       0, 97)
  | RTCConstraintEnableDtlsSrtpTrue =>
      (Localized "rtcConstraintEnableDtlsSrtpTrue" [],
       0, 97)
  | RTCPeerConnectionComplexPlanBSdpUsingDefaultSdpSemantics =>
      (Localized "rtcPeerConnectionComplexPlanBSdpUsingDefaultSdpSemantics" [],
       0, 72)
  | RTCPeerConnectionSdpSemanticsPlanB =>
      (Localized "rtcPeerConnectionSdpSemanticsPlanB" [],
       5823036655665152, 93)
  | RtcpMuxPolicyNegotiate =>
      (Localized "rtcpMuxPolicyNegotiate" [],
       5654810086866944, 62)
  | SharedArrayBufferConstructedWithoutIsolation =>
      (Localized "sharedArrayBufferConstructedWithoutIsolation" [],
       0, 106)
  | TextToSpeech_DisallowedByAutoplay =>
      (Localized "textToSpeech_DisallowedByAutoplay" [],
       5687444770914304, 71)
  | V8SharedArrayBufferConstructedInExtensionWithoutIsolation =>
      (Localized "v8SharedArrayBufferConstructedInExtensionWithoutIsolation" [],
       0, 96)
  | XHRJSONEncodingDetection =>
      (Localized "xhrJSONEncodingDetection" [],
       0, 93)
  | XMLHttpRequestSynchronousInNonWorkerOutsideBeforeUnload =>
      (Localized "xmlHttpRequestSynchronousInNonWorkerOutsideBeforeUnload" [],
       0, 0)
  | XRSupportsSession =>
      (Localized "xrSupportsSession" [],
       0, 80)
  | OtherType _ => (EmptyMessage, 0, 0)
  end%Z.

Section Issue.

(** [Protocol.Audits.SourceCodeLocation] and [SDK.IssuesModel.IssuesModel]
    are used as they come; [InspectorIssueCode.DeprecationIssue] and the
    strings of the members of [DeprecationIssueType] are those of the
    protocol. *)
Context {SourceCodeLocation IssuesModel : Type}.
Context (InspectorIssueCode_DeprecationIssue : string).
Context (type_string : DeprecationIssueType -> string).

(** [Protocol.Audits.DeprecationIssueDetails] *)
Record DeprecationIssueDetails : Type := {
  type : DeprecationIssueType;
  sourceCodeLocation : option SourceCodeLocation;
}.

(** [DeprecationIssue], with the code and the model that the constructor
    hands to [Issue]. *)
Record t : Type := {
  issueDetails : DeprecationIssueDetails;
  code : string;
  umaCode : string;
  issuesModel : IssuesModel;
}.

(** [[a, b].join('::')] *)
Definition join2 (a b : string) : string := a +:+ "::" +:+ b.

Definition new (issueDetails : DeprecationIssueDetails)
    (issuesModel : IssuesModel) : t :=
  let issueCode :=
    join2 InspectorIssueCode_DeprecationIssue
      (type_string (type issueDetails)) in
  {| issueDetails := issueDetails;
     code := issueCode;
     umaCode := "DeprecationIssue";
     issuesModel := issuesModel |}.

Definition details (this : t) : DeprecationIssueDetails := issueDetails this.

Definition getKind (this : t) : IssueKind := BreakingChange.

(** [getDescription] up to the call of [resolveLazyDescription]: the
    description that is handed over. *)
Definition getDescription (this : t) : LazyMarkdownIssueDescription :=
  let '(messageFunction, feature, milestone) :=
    getDescription_switch (type (issueDetails this)) in
  let links := [] in
  let links :=
    if negb (feature =? 0)%Z then
      push links
        {| link := "https://chromestatus.com/feature/"
                   +:+ Number_toString feature;
           linkTitle := Localized "feature" [] |}
    else links in
  let links :=
    if negb (milestone =? 0)%Z then
      push links
        {| link := "https://chromiumdash.appspot.com/schedule";
           linkTitle := Localized "milestone" [("milestone", Number milestone)] |}
    else links in
  {| file := "deprecation.md";
     substitutions :=
       [("PLACEHOLDER_title", Localized "title" []);
        ("PLACEHOLDER_message", messageFunction)];
     links := links |}.

Definition sources (this : t) : list SourceCodeLocation :=
  match sourceCodeLocation (issueDetails this) with
  | Some location => [location]
  | None => []
  end.

(** [fromInspectorIssue]: the issues, and the warnings written to the
    console.  [deprecationIssueDetails] is
    [inspectorIssue.details.deprecationIssueDetails]. *)
Definition fromInspectorIssue (issuesModel : IssuesModel)
    (deprecationIssueDetails : option DeprecationIssueDetails)
  : list t * list string :=
  match deprecationIssueDetails with
  | None => ([], ["Deprecation issue without details received."])
  | Some details => ([new details issuesModel], [])
  end.

End Issue.

End DeprecationIssue.

(** * Properties *)

(** ** The matcher *)

Section MatcherFacts.

Context (E : RegExpEngine).
Implicit Types (s : string) (regExps : list (RegExp E)) (pos : nat).

Lemma substr_0 s : substr s 0 = s.
Proof. by destruct s. Qed.

Lemma turns_app s before after pos :
  turns E s (before ++ after) pos
  = match turns E s before pos with
    | None => None
    | Some pos' => turns E s after pos'
    end.
Proof.
  revert pos. induction before as [|regExp before IH]; intros pos; [done|].
  simpl. destruct (turn E s pos regExp); [apply IH | done].
Qed.

(** A turn that goes on found an occurrence, not at offset [0], and
    moved behind it. *)
Lemma turn_Some s pos regExp pos' :
  turn E s pos regExp = Some pos' <->
  exists index match0,
    String_match E (substr s pos) regExp = Some (index, match0)
    /\ index <> 0 /\ pos' = pos + (index + String.length match0).
Proof.
  unfold turn. split.
  - destruct (String_match E (substr s pos) regExp) as [[index match0]|];
      [|done].
    destruct (Nat.eqb_spec index 0); [done|].
    intros [= <-]. by exists index, match0.
  - intros (index & match0 & -> & Hindex & ->).
    by destruct (Nat.eqb_spec index 0).
Qed.

Lemma turn_no_occurrence s pos regExp :
  String_match E (substr s pos) regExp = None -> turn E s pos regExp = None.
Proof. unfold turn. by intros ->. Qed.

Lemma turn_zero_offset s pos regExp match0 :
  String_match E (substr s pos) regExp = Some (0, match0) ->
  turn E s pos regExp = None.
Proof. unfold turn. by intros ->. Qed.

(** The loop follows the rule of the specification as long as it runs. *)
Lemma turns_spec_scan s regExps pos pos' :
  turns E s regExps pos = Some pos' -> spec_scan E s pos regExps pos'.
Proof.
  revert pos. induction regExps as [|regExp rest IH]; intros pos; simpl.
  - intros [= <-]. constructor.
  - destruct (turn E s pos regExp) as [pos1|] eqn:Hturn; [|done].
    apply turn_Some in Hturn as (index & match0 & Hm & _ & ->).
    intros Hrest. econstructor; eauto.
Qed.

(** The rule is deterministic, and the loop either gave up on the way or
    stands where the rule says. *)
Lemma spec_scan_turns s regExps pos pos' :
  spec_scan E s pos regExps pos' ->
  turns E s regExps pos = None \/ turns E s regExps pos = Some pos'.
Proof.
  induction 1 as [pos|pos regExp rest index match0 pos' Hm _ IH]; simpl.
  - by right.
  - unfold turn. rewrite Hm. destruct (Nat.eqb index 0); [by left | done].
Qed.

Lemma stringMatchesQuery_compiled searchConfig regExps s :
  compile E (flags_of searchConfig) (queries searchConfig) = Normal regExps ->
  stringMatchesQuery E searchConfig s = Normal (goes_through E regExps s).
Proof. unfold stringMatchesQuery. by intros ->. Qed.

Lemma goes_through_true s regExps :
  goes_through E regExps s = true <-> is_Some (turns E s regExps 0).
Proof.
  unfold goes_through. destruct (turns E s regExps 0); split; try done.
Qed.

Lemma stringMatchesQuery_throws searchConfig s :
  compile E (flags_of searchConfig) (queries searchConfig) = Throw ->
  stringMatchesQuery E searchConfig s = Throw.
Proof. unfold stringMatchesQuery. by intros ->. Qed.

(** The loop gives up at a token that it reaches and that cannot go on. *)
Lemma stringMatchesQuery_gives_up searchConfig s regExps before regExp after pos :
  compile E (flags_of searchConfig) (queries searchConfig) = Normal regExps ->
  regExps = before ++ regExp :: after ->
  spec_scan E s 0 before pos ->
  turn E s pos regExp = None ->
  stringMatchesQuery E searchConfig s = Normal false.
Proof.
  intros Hcompile -> Hscan Hturn.
  rewrite (stringMatchesQuery_compiled _ _ _ Hcompile). f_equal.
  unfold goes_through. rewrite turns_app.
  destruct (spec_scan_turns _ _ _ _ Hscan) as [-> | ->]; [done|].
  simpl. by rewrite Hturn.
Qed.

(** The compiled tokens are the regular expressions [new RegExp] made of
    them, one by one. *)
Lemma compile_Normal flags queries regExps :
  compile E flags queries = Normal regExps <->
  Forall2 (fun token regExp => RegExp_new E token flags = Normal regExp)
    queries regExps.
Proof.
  revert regExps. induction queries as [|query rest IH]; intros regExps; simpl.
  - split; [intros [= <-]; constructor | by intros ->%Forall2_nil_inv_l].
  - split.
    + destruct (RegExp_new E query flags) as [regExp|] eqn:Hnew; [|done].
      simpl. destruct (compile E flags rest) as [regExps'|]; [|done].
      simpl. intros [= <-]. constructor; [done | by apply IH].
    + intros (regExp & regExps' & Hnew & Hrest & ->)%Forall2_cons_inv_l.
      rewrite Hnew. simpl. apply IH in Hrest. by rewrite Hrest.
Qed.

(** The loop goes through exactly when the expressions are found one after
    the other, none of them at the start of what is left. *)
Lemma turns_regexp_scan s regExps pos :
  is_Some (turns E s regExps pos) <-> spec_regexp_scan E s pos regExps.
Proof.
  revert pos. induction regExps as [|regExp rest IH]; intros pos; simpl.
  - split; [constructor | done].
  - split.
    + destruct (turn E s pos regExp) as [pos1|] eqn:Hturn;
        [|by intros [? [=]]].
      apply turn_Some in Hturn as (index & match0 & Hm & Hindex & ->).
      intros Hrest. econstructor; [done.. | by apply IH].
    + inversion 1 as [|? ? ? index match0 Hm Hindex Hrest]; subst.
      assert (turn E s pos regExp
              = Some (pos + (index + String.length match0))) as ->
        by (apply turn_Some; by exists index, match0).
      by apply IH.
Qed.

Lemma stringMatchesQuery_as_regexps searchConfig s :
  stringMatchesQuery E searchConfig s = Normal true
  <-> spec_matches_as_regexps E searchConfig s.
Proof.
  unfold spec_matches_as_regexps, spec_tokens_as_regexps. split.
  - unfold stringMatchesQuery.
    destruct (compile E (flags_of searchConfig) (queries searchConfig))
      as [regExps|] eqn:Hcompile; [|done].
    simpl. intros [= Hthrough]. exists regExps. split.
    + by apply compile_Normal.
    + by apply turns_regexp_scan, goes_through_true.
  - intros (regExps & Hcompile%compile_Normal & Hscan).
    rewrite (stringMatchesQuery_compiled _ _ _ Hcompile). f_equal.
    by apply goes_through_true, turns_regexp_scan.
Qed.

End MatcherFacts.

(** ** The engine of the fragment finds the first occurrence *)

Section FragmentFacts.

Import Fragment.

Lemma match_here_prefix ignore_case atoms s match0 :
  match_here ignore_case atoms s = Some match0 ->
  String.length match0 = List.length atoms
  /\ exists rest, s = match0 +:+ rest.
Proof.
  revert s match0.
  induction atoms as [|a atoms IH]; intros s match0; simpl.
  - intros [= <-]. split; [done | by exists s].
  - destruct s as [|c s]; [done|].
    destruct (atom_matches ignore_case a c); [|done].
    destruct (match_here ignore_case atoms s) as [m|] eqn:Hm; [|done].
    intros [= <-]. destruct (IH _ _ Hm) as (Hlen & rest & ->).
    split; [simpl; by rewrite Hlen | by exists rest].
Qed.

(** [search] returns the least index at which the atoms match. *)
Lemma search_first ignore_case atoms s from index match0 :
  search ignore_case atoms s from = Some (index, match0) ->
  from <= index
  /\ match_here ignore_case atoms (substr s (index - from)) = Some match0
  /\ forall j, j < index - from ->
       match_here ignore_case atoms (substr s j) = None.
Proof.
  revert from. induction s as [|c s IH]; intros from; simpl.
  - destruct (match_here ignore_case atoms "") as [m|] eqn:Hm; [|done].
    intros [= <- <-]. rewrite Nat.sub_diag. split_and!; [done|done|lia].
  - destruct (match_here ignore_case atoms (String c s)) as [m|] eqn:Hm.
    + intros [= <- <-]. rewrite Nat.sub_diag. split_and!; [done|done|lia].
    + intros Hs. destruct (IH _ Hs) as (Hle & Hat & Hbefore).
      split; [lia|].
      replace (index - from) with (S (index - S from)) by lia.
      split; [done|].
      intros [|j] Hj; [done|]. simpl. apply Hbefore. lia.
Qed.

Lemma search_none ignore_case atoms s from j :
  search ignore_case atoms s from = None ->
  match_here ignore_case atoms (substr s j) = None.
Proof.
  revert from j. induction s as [|c s IH]; intros from j; simpl.
  - destruct (match_here ignore_case atoms "") eqn:Hm; [done|].
    intros _. by destruct j.
  - destruct (match_here ignore_case atoms (String c s)) eqn:Hm; [done|].
    intros Hs. destruct j as [|j]; [done|]. simpl. by eapply IH.
Qed.

Lemma substr_empty pos : substr "" pos = "".
Proof. by destruct pos. Qed.

Lemma substr_substr s pos index :
  substr (substr s pos) index = substr s (pos + index).
Proof.
  revert s. induction pos as [|pos IH]; intros s; simpl.
  - by rewrite substr_0.
  - destruct s as [|c s]; [apply substr_empty | apply IH].
Qed.

(** What the matcher takes from the remaining substring is the first
    occurrence of the token at or after the current position of [s]: the
    atoms match at position [pos + index], and at no position from [pos]
    up to there. *)
Lemma String_match_first_occurrence s pos (r : RegExp engine) index match0 :
  String_match engine (substr s pos) r = Some (index, match0) ->
  match_here (ignore_case r) (atoms r) (substr s (pos + index)) = Some match0
  /\ forall j, j < index ->
       match_here (ignore_case r) (atoms r) (substr s (pos + j)) = None.
Proof.
  simpl. intros (_ & Hat & Hbefore)%search_first.
  rewrite Nat.sub_0_r, substr_substr in Hat. split; [done|].
  intros j Hj. rewrite <- substr_substr. apply Hbefore. lia.
Qed.

Lemma String_match_no_occurrence s pos (r : RegExp engine) j :
  String_match engine (substr s pos) r = None ->
  match_here (ignore_case r) (atoms r) (substr s (pos + j)) = None.
Proof.
  simpl. intros Hnone. rewrite <- substr_substr. by eapply search_none.
Qed.

Lemma ascii_compare_refl (a : ascii) : Ascii.compare a a = Eq.
Proof. unfold Ascii.compare. apply N.compare_refl. Qed.

Lemma string_compare_refl (s : string) : String.compare s s = Eq.
Proof.
  induction s as [|a s IH]; [done|].
  simpl. by rewrite ascii_compare_refl.
Qed.

Lemma string_compare_trans (s1 s2 s3 : string) :
  String.compare s1 s2 <> Gt -> String.compare s2 s3 <> Gt ->
  String.compare s1 s3 <> Gt.
Proof.
  revert s2 s3.
  induction s1 as [|a s1 IH]; intros [|b s2] [|c s3]; simpl; try done.
  unfold Ascii.compare.
  destruct (N.compare_spec (N_of_ascii a) (N_of_ascii b)) as [Hab|Hab|Hab];
    destruct (N.compare_spec (N_of_ascii b) (N_of_ascii c)) as [Hbc|Hbc|Hbc];
    try done.
  - rewrite Hab, Hbc, N.compare_refl. apply IH.
  - intros _ _. rewrite Hab. by apply N.compare_lt_iff in Hbc as ->.
  - intros _ _. rewrite <- Hbc. by apply N.compare_lt_iff in Hab as ->.
  - intros _ _.
    assert (N_of_ascii a < N_of_ascii c)%N as Hac by lia.
    by apply N.compare_lt_iff in Hac as ->.
Qed.

Lemma compare_code_units_nonpos (s1 s2 : string) :
  (compare_code_units s1 s2 <= 0)%Z <-> String.compare s1 s2 <> Gt.
Proof.
  unfold compare_code_units.
  destruct (String.compare s1 s2); split; (done || lia).
Qed.

(** The comparison by code units is a consistent comparison function. *)
Lemma compare_code_units_total (s1 s2 : string) :
  (compare_code_units s1 s2 <= 0)%Z \/ (compare_code_units s2 s1 <= 0)%Z.
Proof.
  rewrite !compare_code_units_nonpos, (String.compare_antisym s2 s1).
  destruct (String.compare s1 s2); simpl; auto.
Qed.

Lemma compare_code_units_trans (s1 s2 s3 : string) :
  (compare_code_units s1 s2 <= 0)%Z -> (compare_code_units s2 s3 <= 0)%Z ->
  (compare_code_units s1 s3 <= 0)%Z.
Proof. rewrite !compare_code_units_nonpos. apply string_compare_trans. Qed.

End FragmentFacts.

(** ** The match locations of one candidate *)

Section LocationFacts.

Context (E : RegExpEngine) (searchConfig : SearchConfig).

Lemma compile_Throw flags queries :
  compile E flags queries = Throw <->
  exists token, token ∈ queries /\ RegExp_new E token flags = Throw.
Proof.
  induction queries as [|query rest IH]; simpl.
  - split; [done|]. by intros (? & []%elem_of_nil & _).
  - destruct (RegExp_new E query flags) as [regExp|] eqn:Hnew; simpl.
    + destruct (compile E flags rest) as [regExps|]; simpl.
      * split; [done|].
        intros (token & [->|Hin]%elem_of_cons & Hthrow); [congruence|].
        assert (@Normal (list (RegExp E)) regExps = Throw) as [=].
        apply IH. by exists token.
      * split; [|done]. intros _.
        destruct (proj1 IH eq_refl) as (token & Hin & Hthrow).
        exists token. split; [apply elem_of_cons; by right | done].
    + split; [|done]. intros _.
      exists query. split; [apply elem_of_cons; by left | done].
Qed.

Lemma for_bodyMatches_app request bodyMatches locations :
  for_bodyMatches request bodyMatches locations
  = locations
    ++ map (fun m => UIRequestLocation.bodyMatch request (Some m)) bodyMatches.
Proof.
  revert locations.
  induction bodyMatches as [|m rest IH]; intros locations; simpl.
  - by rewrite app_nil_r.
  - rewrite IH. unfold push. by rewrite <- app_assoc.
Qed.

Lemma for_headers_compiled regExps location_of headers locations :
  compile E (flags_of searchConfig) (queries searchConfig) = Normal regExps ->
  for_headers E searchConfig location_of headers locations
  = Normal (locations
            ++ map location_of
                 (List.filter (fun header =>
                    goes_through E regExps
                      (name header +:+ ": " +:+ value header)) headers)).
Proof.
  intros Hcompile. revert locations.
  induction headers as [|header rest IH]; intros locations; simpl.
  - by rewrite app_nil_r.
  - unfold headerMatchesQuery.
    rewrite (stringMatchesQuery_compiled _ _ _ _ Hcompile). simpl.
    rewrite IH. fold (goes_through E regExps
                        (name header +:+ ": " +:+ value header)).
    destruct (goes_through E regExps _); [|done].
    unfold push. simpl. by rewrite <- app_assoc.
Qed.

Lemma collect_locations_compiled regExps request bodyMatches :
  compile E (flags_of searchConfig) (queries searchConfig) = Normal regExps ->
  collect_locations E searchConfig request bodyMatches
  = Normal (spec_discovery_order (goes_through E regExps) request bodyMatches).
Proof.
  intros Hcompile. unfold collect_locations, spec_discovery_order.
  rewrite (stringMatchesQuery_compiled _ _ _ _ Hcompile). simpl.
  repeat (rewrite (for_headers_compiled _ _ _ _ Hcompile); simpl).
  rewrite for_bodyMatches_app. f_equal.
  destruct (goes_through E regExps (url request)); unfold push; simpl;
    by rewrite <- ?app_assoc.
Qed.

Lemma collect_locations_throws request bodyMatches :
  compile E (flags_of searchConfig) (queries searchConfig) = Throw ->
  collect_locations E searchConfig request bodyMatches = Throw.
Proof.
  intros Hcompile. unfold collect_locations.
  by rewrite (stringMatchesQuery_throws _ _ _ Hcompile).
Qed.

Lemma collect_locations_Normal request bodyMatches locations :
  collect_locations E searchConfig request bodyMatches = Normal locations ->
  exists regExps,
    compile E (flags_of searchConfig) (queries searchConfig) = Normal regExps
    /\ locations
       = spec_discovery_order (goes_through E regExps) request bodyMatches.
Proof.
  destruct (compile E (flags_of searchConfig) (queries searchConfig))
    as [regExps|] eqn:Hcompile.
  - rewrite (collect_locations_compiled _ _ _ Hcompile). intros [= <-].
    by exists regExps.
  - by rewrite (collect_locations_throws _ _ Hcompile).
Qed.

(** The locations of a candidate are made by the constructors, from the
    request's own headers and from the body matches. *)
Lemma spec_discovery_order_elem matches request bodyMatches l :
  l ∈ spec_discovery_order matches request bodyMatches ->
  l = UIRequestLocation.urlMatch request
  \/ (exists header, header ∈ requestHeaders request
        /\ l = UIRequestLocation.requestHeaderMatch request (Some header))
  \/ (exists header, header ∈ responseHeaders request
        /\ l = UIRequestLocation.responseHeaderMatch request (Some header))
  \/ (exists m, m ∈ bodyMatches
        /\ l = UIRequestLocation.bodyMatch request (Some m)).
Proof.
  unfold spec_discovery_order.
  rewrite !elem_of_app, !list_elem_of_fmap.
  intros [Hurl | [(h & -> & Hh) | [(h & -> & Hh) | (m & -> & Hm)]]].
  - left. destruct (matches (url request)).
    + by apply list_elem_of_singleton in Hurl.
    + by apply elem_of_nil in Hurl.
  - right; left. exists h. split; [|done].
    apply list_elem_of_In, filter_In in Hh as [Hh _].
    by apply list_elem_of_In.
  - right; right; left. exists h. split; [|done].
    apply list_elem_of_In, filter_In in Hh as [Hh _].
    by apply list_elem_of_In.
  - right; right; right. by exists m.
Qed.

End LocationFacts.

(** ** Which locations a candidate has *)

Section Matches.

Context (matches : string -> bool) (r : NetworkRequest).
Context (bodyMatches : list SearchMatch).

Abbreviation header_text :=
  (fun header : NameValue => name header +:+ ": " +:+ value header).

Lemma elem_of_matching (headers : list NameValue) h :
  h ∈ List.filter (fun header => matches (header_text header)) headers
  <-> h ∈ headers /\ matches (header_text h) = true.
Proof. by rewrite !list_elem_of_In, filter_In. Qed.

Lemma spec_discovery_order_url :
  UIRequestLocation.urlMatch r ∈ spec_discovery_order matches r bodyMatches
  <-> matches (url r) = true.
Proof.
  unfold spec_discovery_order. rewrite !elem_of_app, !list_elem_of_fmap.
  split.
  - intros [Hurl | [(h & [=] & _) | [(h & [=] & _) | (m & [=] & _)]]].
    destruct (matches (url r)); [done | by apply elem_of_nil in Hurl].
  - intros ->. left. apply list_elem_of_here.
Qed.

Lemma spec_discovery_order_request_header h :
  UIRequestLocation.requestHeaderMatch r (Some h)
  ∈ spec_discovery_order matches r bodyMatches
  <-> h ∈ requestHeaders r /\ matches (header_text h) = true.
Proof.
  unfold spec_discovery_order. rewrite !elem_of_app, !list_elem_of_fmap.
  rewrite <- elem_of_matching. split.
  - intros [Hurl | [(h' & [= <-] & Hh) | [(h' & [=] & _) | (m & [=] & _)]]];
      [|done].
    destruct (matches (url r)); [|by apply elem_of_nil in Hurl].
    by apply list_elem_of_singleton in Hurl.
  - intros Hh. right; left. by exists h.
Qed.

Lemma spec_discovery_order_response_header h :
  UIRequestLocation.responseHeaderMatch r (Some h)
  ∈ spec_discovery_order matches r bodyMatches
  <-> h ∈ responseHeaders r /\ matches (header_text h) = true.
Proof.
  unfold spec_discovery_order. rewrite !elem_of_app, !list_elem_of_fmap.
  rewrite <- elem_of_matching. split.
  - intros [Hurl | [(h' & [=] & _) | [(h' & [= <-] & Hh) | (m & [=] & _)]]];
      [|done].
    destruct (matches (url r)); [|by apply elem_of_nil in Hurl].
    by apply list_elem_of_singleton in Hurl.
  - intros Hh. right; right; left. by exists h.
Qed.

End Matches.

(** ** Lists, counts and the sort *)

Section ListFacts.

Context {A : Type}.
Implicit Types (f : A -> bool) (l : list A).

Lemma count_app f l1 l2 : count f (l1 ++ l2) = count f l1 + count f l2.
Proof. unfold count. by rewrite List.filter_app, length_app. Qed.

Lemma count_le f l : count f l <= List.length l.
Proof. apply List.filter_length_le. Qed.

Lemma count_all f l : Forall (fun x => f x = true) l -> count f l = List.length l.
Proof.
  unfold count. induction 1 as [|x l Hx _ IH]; [done|].
  simpl. rewrite Hx. simpl. by rewrite IH.
Qed.

Lemma count_none_of f l : Forall (fun x => f x = false) l -> count f l = 0.
Proof.
  unfold count. induction 1 as [|x l Hx _ IH]; [done|].
  simpl. by rewrite Hx.
Qed.

(** [array[i] = x] changes the count by what goes and what comes. *)
Lemma count_insert f l i x y :
  l !! i = Some y ->
  count f (<[i:=x]> l) + (if f y then 1 else 0)
  = count f l + (if f x then 1 else 0).
Proof.
  intros Hi.
  rewrite insert_take_drop by (by eapply lookup_lt_Some).
  pose proof (take_drop_middle l i y Hi) as Hl.
  remember (take i l) as l1. remember (drop (S i) l) as l2.
  rewrite <- Hl, !count_app.
  change (x :: l2) with ([x] ++ l2). change (y :: l2) with ([y] ++ l2).
  rewrite !count_app. unfold count at 2 5. simpl.
  destruct (f x), (f y); simpl; lia.
Qed.

Lemma elem_of_insert_inv l i x y : y ∈ <[i:=x]> l -> y = x \/ y ∈ l.
Proof.
  destruct (decide (i < List.length l)) as [Hi|Hi].
  - rewrite insert_take_drop by done.
    rewrite elem_of_app, elem_of_cons.
    intros [Hy | [-> | Hy]]; [right | by left | right].
    + by eapply subseteq_take.
    + by eapply subseteq_drop.
  - rewrite list_insert_ge by lia. by right.
Qed.

Lemma filter_Permutation f l l' : l ≡ₚ l' -> List.filter f l ≡ₚ List.filter f l'.
Proof.
  induction 1 as [|x l l' _ IH|x y l|l l' l'' _ IH1 _ IH2]; simpl.
  - done.
  - destruct (f x); by rewrite IH.
  - destruct (f x), (f y); (done || apply Permutation_swap).
  - by rewrite IH1.
Qed.

Context (comparefn : A -> A -> Z).

Lemma sort_insert_Permutation x l : sort_insert comparefn x l ≡ₚ x :: l.
Proof.
  induction l as [|y l IH]; [done|]. simpl.
  destruct (comparefn x y <=? 0)%Z; [done|].
  rewrite IH. apply Permutation_swap.
Qed.

Lemma Array_sort_Permutation l : Array_sort comparefn l ≡ₚ l.
Proof.
  induction l as [|x l IH]; [done|]. simpl.
  by rewrite sort_insert_Permutation, IH.
Qed.

(** A consistent comparison function orders the array. *)
Context (Htotal : forall x y, (comparefn x y <= 0)%Z \/ (comparefn y x <= 0)%Z).
Context (Htrans : forall x y z,
  (comparefn x y <= 0)%Z -> (comparefn y z <= 0)%Z -> (comparefn x z <= 0)%Z).

Abbreviation before := (comes_before comparefn).

Lemma sort_insert_StronglySorted x l :
  StronglySorted before l -> StronglySorted before (sort_insert comparefn x l).
Proof.
  induction 1 as [|y l Hl IH Hy]; simpl.
  - by repeat constructor.
  - destruct (Z.leb_spec (comparefn x y) 0) as [Hxy|Hxy].
    + constructor; [by constructor|]. constructor; [done|].
      eapply Forall_impl; [exact Hy|]. intros z Hz. by eapply Htrans.
    + constructor; [done|].
      rewrite sort_insert_Permutation. constructor; [|done].
      unfold comes_before. destruct (Htotal x y); [lia | done].
Qed.

Lemma Array_sort_StronglySorted l :
  StronglySorted before (Array_sort comparefn l).
Proof.
  induction l as [|x l IH]; simpl; [constructor|].
  by apply sort_insert_StronglySorted.
Qed.

Lemma filter_StronglySorted f l :
  StronglySorted before l -> StronglySorted before (List.filter f l).
Proof.
  induction 1 as [|y l Hl IH Hy]; simpl; [constructor|].
  destruct (f y); [|done]. constructor; [done|].
  apply Forall_forall. intros z [Hz _]%list_elem_of_In%filter_In.
  rewrite Forall_forall in Hy. by apply Hy, list_elem_of_In.
Qed.

(** The sort is stable: tied elements keep the order they had. *)
Lemma sort_insert_stable x a l :
  StronglySorted before l ->
  List.filter (tied comparefn x) (sort_insert comparefn a l)
  = if tied comparefn x a then a :: List.filter (tied comparefn x) l
    else List.filter (tied comparefn x) l.
Proof.
  induction 1 as [|y l Hl IH Hy]; [done|]. simpl.
  destruct (Z.leb_spec (comparefn a y) 0) as [Hay|Hay]; [done|].
  simpl. rewrite IH.
  destruct (tied comparefn x a) eqn:Ha, (tied comparefn x y) eqn:Hxy;
    try done.
  unfold tied in Ha, Hxy.
  apply andb_true_iff in Ha as [_ Hax%Z.leb_le].
  apply andb_true_iff in Hxy as [Hxy%Z.leb_le _].
  pose proof (Htrans a x y Hax Hxy). lia.
Qed.

Lemma Array_sort_stable x l :
  List.filter (tied comparefn x) (Array_sort comparefn l)
  = List.filter (tied comparefn x) l.
Proof.
  induction l as [|a l IH]; [done|]. simpl.
  rewrite sort_insert_stable by apply Array_sort_StronglySorted.
  by rewrite IH.
Qed.

End ListFacts.

(** ** The tasks of a run *)

Section TaskFacts.

Context (E : RegExpEngine) (searchConfig : SearchConfig) (progress : Progress).

Abbreviation continue := (_searchRequest_continue E searchConfig progress).
Abbreviation invariant := (tasks_invariant progress).

Lemma worked_calls_app events1 events2 :
  worked_calls (events1 ++ events2)
  = worked_calls events1 + worked_calls events2.
Proof. apply count_app. Qed.

(** One task from its check of [isCanceled()] on. *)
Lemma _searchRequest_continue_spec request bodyMatches w :
  exists c,
    continue request bodyMatches w
    = (c, {| polls := S (polls w);
             log := log w
                    ++ (if returned_result (Settled c) then [Worked] else []) |})
    /\ (returned_null (Settled c) = true ->
        isCanceled progress (polls w) = true)
    /\ (isCanceled progress (polls w) = false ->
        c = match collect_locations E searchConfig request bodyMatches with
            | Throw => Throw
            | Normal locations =>
                Normal (Some (NetworkSearchResult.new request locations))
            end).
Proof.
  unfold _searchRequest_continue, bind, poll, ret, emit.
  destruct (isCanceled progress (polls w)); simpl.
  - exists (Normal None). simpl. by rewrite app_nil_r.
  - destruct (collect_locations E searchConfig request bodyMatches)
      as [locations|]; simpl.
    + by exists (Normal (Some (NetworkSearchResult.new request locations))).
    + exists Throw. simpl. by rewrite app_nil_r.
Qed.

Lemma invariant_start w0 : invariant w0 [] w0.
Proof.
  split_and!.
  - exists []. by rewrite app_nil_r.
  - unfold count. simpl. lia.
  - by intros p ?%elem_of_nil.
Qed.

(** A settled task joins the promises, or takes the place of a waiting
    one. *)
Lemma invariant_settle w0 promises promises' w request bodyMatches c w' :
  invariant w0 promises w ->
  continue request bodyMatches w = (c, w') ->
  (forall f : Promise -> bool,
     f (Awaiting request bodyMatches) = false ->
     count f promises' = count f promises + (if f (Settled c) then 1 else 0)) ->
  (forall p, p ∈ promises' -> p = Settled c \/ p ∈ promises) ->
  invariant w0 promises' w'.
Proof.
  intros ((events & Hlog & Hevents & Hworked) & Hpolls & Hnull)
    Hcontinue Hcount Helem.
  destruct (_searchRequest_continue_spec request bodyMatches w)
    as (c' & Hc & Hcanceled & _).
  rewrite Hcontinue in Hc. injection Hc as <- ->.
  split_and!; simpl.
  - exists (events ++ (if returned_result (Settled c) then [Worked] else [])).
    rewrite Hlog, <- app_assoc. split; [done|]. split.
    + apply Forall_app. split; [done|].
      destruct (returned_result (Settled c)); by repeat constructor.
    + rewrite worked_calls_app, Hworked, (Hcount returned_result) by done.
      by destruct (returned_result (Settled c)).
  - rewrite Hpolls, (Hcount settled) by done. simpl. lia.
  - intros p [-> | Hp]%Helem Hp_null.
    + exists (polls w). split; [lia | by apply Hcanceled].
    + destruct (Hnull p Hp Hp_null) as (k & Hk & Hans).
      exists k. split; [lia | done].
Qed.

(** A task that waits has logged its call of [searchInContent]. *)
Lemma invariant_await w0 promises w request q caseSensitive regex bodyMatches :
  invariant w0 promises w ->
  invariant w0 (push promises (Awaiting request bodyMatches))
    {| polls := polls w;
       log := log w ++ [SearchInContent request q caseSensitive regex] |}.
Proof.
  intros ((events & Hlog & Hevents & Hworked) & Hpolls & Hnull).
  unfold push. split_and!; simpl.
  - exists (events ++ [SearchInContent request q caseSensitive regex]).
    rewrite Hlog, <- app_assoc. split; [done|]. split.
    + apply Forall_app. split; [done | by repeat constructor].
    + rewrite worked_calls_app, Hworked, count_app.
      unfold worked_calls, count. simpl. lia.
  - rewrite Hpolls, count_app. unfold count at 3. simpl. lia.
  - intros p [Hp | ->%list_elem_of_singleton]%elem_of_app; [|done].
    by apply Hnull.
Qed.

Lemma invariant__searchRequest w0 promises w request promise w' :
  invariant w0 promises w ->
  _searchRequest E searchConfig progress request w = (promise, w') ->
  invariant w0 (push promises promise) w'.
Proof.
  intros Hinv. unfold _searchRequest.
  destruct (isTextType request).
  - unfold bind, emit, ret. intros [= <- <-]. by apply invariant_await.
  - unfold bind, ret.
    destruct (continue request [] w) as [c w1] eqn:Hc. intros [= <- <-].
    eapply invariant_settle; [done | exact Hc | |].
    + intros f _. unfold push. rewrite count_app. unfold count.
      simpl. by destruct (f (Settled c)).
    + intros p [Hp | ->%list_elem_of_singleton]%elem_of_app; auto.
Qed.

Lemma for_requests_spec w0 requests promises w promises' w' :
  invariant w0 promises w ->
  for_requests E searchConfig progress requests promises w = (promises', w') ->
  invariant w0 promises' w'
  /\ List.length promises' = List.length promises + List.length requests.
Proof.
  revert promises w.
  induction requests as [|request rest IH]; intros promises w Hinv; simpl.
  - unfold ret. intros [= <- <-]. split; [done | lia].
  - unfold bind at 1.
    destruct (_searchRequest E searchConfig progress request w)
      as [promise w1] eqn:Hstart.
    intros Hrest.
    apply IH in Hrest as [Hinv' Hlen];
      [|by eapply invariant__searchRequest].
    split; [done|]. rewrite Hlen. unfold push. rewrite length_app. simpl. lia.
Qed.

Lemma resume_spec w0 promises i w promises' w' :
  invariant w0 promises w ->
  resume E searchConfig progress promises i w = (promises', w') ->
  invariant w0 promises' w' /\ List.length promises' = List.length promises.
Proof.
  intros Hinv. unfold resume.
  destruct (promises !! i) as [[request bodyMatches|c]|] eqn:Hi;
    try (unfold ret; by intros [= <- <-]).
  unfold bind, ret.
  destruct (continue request bodyMatches w) as [c w1] eqn:Hc.
  intros [= <- <-]. split; [|by rewrite length_insert].
  eapply invariant_settle; [done | exact Hc | |].
  - intros f Hf.
    pose proof (count_insert f promises i (Settled c) _ Hi) as Hcount.
    rewrite Hf in Hcount. lia.
  - apply elem_of_insert_inv.
Qed.

Lemma run_tasks_spec w0 schedule promises w promises' w' :
  invariant w0 promises w ->
  run_tasks E searchConfig progress schedule promises w = (promises', w') ->
  invariant w0 promises' w' /\ List.length promises' = List.length promises.
Proof.
  revert promises w.
  induction schedule as [|i rest IH]; intros promises w Hinv; simpl.
  - unfold ret. by intros [= <- <-].
  - unfold bind at 1.
    destruct (resume E searchConfig progress promises i w)
      as [promises1 w1] eqn:Hresume.
    apply (resume_spec w0) in Hresume as [Hinv1 Hlen1]; [|done].
    intros Hrest. apply IH in Hrest as [Hinv' Hlen]; [|done].
    split; [done | congruence].
Qed.

(** The state when [Promise.all] is decided. *)
Lemma performSearch_tasks_spec networkLog schedule promises w :
  performSearch_tasks E searchConfig progress networkLog schedule initial
  = (promises, w) ->
  let N := List.length (candidates searchConfig networkLog) in
  invariant {| polls := 0; log := [SetTotalWork N] |} promises w
  /\ List.length promises = N.
Proof.
  intros Htasks N. revert Htasks.
  unfold performSearch_tasks, bind at 1, emit. simpl. fold N. unfold bind.
  destruct (for_requests _ _ _ _ _ _) as [promises1 w1] eqn:Hfor.
  intros Hrun.
  apply (for_requests_spec {| polls := 0; log := [SetTotalWork N] |})
    in Hfor as [Hinv1 Hlen1]; [|apply invariant_start].
  apply (run_tasks_spec {| polls := 0; log := [SetTotalWork N] |})
    in Hrun as [Hinv Hlen]; [|done].
  split; [done|]. rewrite Hlen, Hlen1. simpl. by fold N.
Qed.

Lemma Promise_all_Fulfilled promises values :
  Promise_all promises = Fulfilled values ->
  promises = map (fun v => Settled (Normal v)) values.
Proof.
  revert values. induction promises as [|p promises IH]; intros values; simpl.
  - by intros [= <-].
  - destruct p as [request bodyMatches|[v|]], (Promise_all promises);
      try done.
    intros [= <-]. simpl. by rewrite <- IH.
Qed.

Lemma for_results_spec results w :
  for_results results w
  = (tt, {| polls := polls w;
            log := log w
                   ++ map SearchResultCallback
                        (List.filter (fun result =>
                           0 <? NetworkSearchResult.matchesCount result)
                           results) |}).
Proof.
  revert w. induction results as [|result rest IH]; intros w; simpl.
  - rewrite app_nil_r. by destruct w.
  - unfold bind at 1.
    destruct (0 <? NetworkSearchResult.matchesCount result); simpl.
    + unfold emit. rewrite IH. simpl. by rewrite <- app_assoc.
    + unfold ret. by rewrite IH.
Qed.

End TaskFacts.

(** ** The run of [performSearch] *)

Section RunFacts.

Context (E : RegExpEngine) (localeCompare : string -> string -> Z).
Context (searchConfig : SearchConfig) (progress : Progress).

Abbreviation continue := (_searchRequest_continue E searchConfig progress).

(** A task that is not cancelled settles to [uncanceled_search]. *)
Lemma continue_task_of request w :
  task_of E searchConfig request
    (Settled (continue request (bodyMatches_of searchConfig request) w).1).
Proof.
  unfold _searchRequest_continue, bind, poll, ret, emit.
  destruct (isCanceled progress (polls w)); simpl.
  - right; by left.
  - right; right. unfold uncanceled_search.
    by destruct (collect_locations E searchConfig request _).
Qed.

Lemma _searchRequest_task_of request w :
  task_of E searchConfig request
    (_searchRequest E searchConfig progress request w).1.
Proof.
  unfold _searchRequest.
  pose proof (continue_task_of request w) as Hcontinue.
  unfold task_of, bodyMatches_of in *.
  destruct (isTextType request).
  - by left.
  - unfold bind, ret. by destruct (continue request [] w).
Qed.

Lemma for_requests_task_of requests done_requests promises w :
  Forall2 (task_of E searchConfig) done_requests promises ->
  Forall2 (task_of E searchConfig) (done_requests ++ requests)
    (for_requests E searchConfig progress requests promises w).1.
Proof.
  revert done_requests promises w.
  induction requests as [|request rest IH];
    intros done_requests promises w Hdone; simpl.
  - by rewrite app_nil_r.
  - unfold bind at 1.
    pose proof (_searchRequest_task_of request w) as Htask.
    destruct (_searchRequest E searchConfig progress request w)
      as [promise w1].
    rewrite (cons_middle request), app_assoc. apply IH.
    apply Forall2_app; [done | by constructor].
Qed.

Lemma resume_task_of requests promises i w :
  Forall2 (task_of E searchConfig) requests promises ->
  Forall2 (task_of E searchConfig) requests
    (resume E searchConfig progress promises i w).1.
Proof.
  intros Hall. unfold resume.
  destruct (promises !! i) as [[request bodyMatches|c]|] eqn:Hi; try done.
  unfold bind, ret.
  destruct (Forall2_lookup_r _ _ _ _ _ Hall Hi) as (request' & Hi' & Htask).
  pose proof (continue_task_of request' w) as Hcontinue.
  destruct Htask as [[= -> ->] | [[=] | Hsettled]].
  - destruct (continue request' _ w) as [c w1]. simpl in *.
    rewrite <- (list_insert_id requests i request' Hi').
    by apply Forall2_insert.
  - unfold uncanceled_search in Hsettled.
    by destruct (collect_locations _ _ _ _).
Qed.

Lemma run_tasks_task_of requests schedule promises w :
  Forall2 (task_of E searchConfig) requests promises ->
  Forall2 (task_of E searchConfig) requests
    (run_tasks E searchConfig progress schedule promises w).1.
Proof.
  revert promises w.
  induction schedule as [|i rest IH]; intros promises w Hall; simpl; [done|].
  unfold bind at 1.
  pose proof (resume_task_of requests promises i w Hall) as Hresume.
  destruct (resume E searchConfig progress promises i w) as [promises1 w1].
  by apply IH.
Qed.

Lemma performSearch_tasks_task_of networkLog schedule w :
  Forall2 (task_of E searchConfig) (candidates searchConfig networkLog)
    (performSearch_tasks E searchConfig progress networkLog schedule w).1.
Proof.
  unfold performSearch_tasks, bind at 1, emit. simpl. unfold bind.
  pose proof (for_requests_task_of (candidates searchConfig networkLog)
                [] [] {| polls := polls w;
                         log := log w ++ [SetTotalWork
                           (List.length (candidates searchConfig networkLog))] |}
                (Forall2_nil_2 _ _ _)) as Hfor.
  destruct (for_requests _ _ _ _ _ _) as [promises1 w1].
  by apply run_tasks_task_of.
Qed.

Lemma performSearch_join_spec promises w :
  performSearch_join localeCompare progress promises w
  = match Promise_all promises with
    | StillPending => (NeverSettles, w)
    | Rejected => (Rejects, w)
    | Fulfilled values =>
        (Resolves,
         {| polls := S (polls w);
            log := log w
                   ++ join_events localeCompare values
                        (isCanceled progress (polls w)) |})
    end.
Proof.
  unfold performSearch_join, join_events.
  destruct (Promise_all promises) as [| |values]; try done.
  unfold bind, poll, ret, emit. simpl.
  destruct (isCanceled progress (polls w)); [done|].
  rewrite for_results_spec. simpl. by rewrite <- !app_assoc.
Qed.

End RunFacts.

(** ** What a log shows *)

Section LogFacts.

Lemma task_events_observed events :
  Forall (fun e => task_event e = true) events ->
  totalWork_calls events = []
  /\ List.filter is_callback events = []
  /\ delivered events = []
  /\ finished events = [].
Proof.
  unfold totalWork_calls, delivered, finished.
  induction 1 as [|e events He _ (IH1 & IH2 & IH3 & IH4)]; [done|].
  destruct e; try done; simpl; by rewrite ?IH1, ?IH2, ?IH3, ?IH4.
Qed.

Lemma results_observed results :
  totalWork_calls (map SearchResultCallback results) = []
  /\ worked_calls (map SearchResultCallback results) = 0
  /\ List.filter is_callback (map SearchResultCallback results)
     = map SearchResultCallback results
  /\ delivered (map SearchResultCallback results) = results
  /\ finished (map SearchResultCallback results) = [].
Proof.
  unfold totalWork_calls, worked_calls, count, delivered, finished.
  induction results as [|result rest (IH1 & IH2 & IH3 & IH4 & IH5)]; [done|].
  simpl. split_and!; try done; by f_equal.
Qed.

Lemma join_events_observed localeCompare values canceled :
  let surfaced :=
    List.filter (fun result => 0 <? NetworkSearchResult.matchesCount result)
      (Array_sort (compare_labels localeCompare) (omap id values)) in
  totalWork_calls (join_events localeCompare values canceled) = []
  /\ worked_calls (join_events localeCompare values canceled) = 0
  /\ List.filter is_callback (join_events localeCompare values canceled)
     = (if canceled then [SearchFinishedCallback false]
        else map SearchResultCallback surfaced
             ++ [SearchFinishedCallback true])
  /\ delivered (join_events localeCompare values canceled)
     = (if canceled then [] else surfaced)
  /\ finished (join_events localeCompare values canceled) = [negb canceled].
Proof.
  intros surfaced. unfold join_events. fold surfaced.
  destruct canceled; [done|].
  destruct (results_observed surfaced) as (H1 & H2 & H3 & H4 & H5).
  unfold totalWork_calls, delivered, finished in *.
  rewrite worked_calls_app, List.filter_app, !omap_app, H1, H2, H3, H4, H5.
  simpl. by rewrite app_nil_r.
Qed.

(** The log of a run, seen from the outside. *)
Lemma run_observed n events tail :
  Forall (fun e => task_event e = true) events ->
  totalWork_calls (SetTotalWork n :: events ++ tail)
  = n :: totalWork_calls tail
  /\ worked_calls (SetTotalWork n :: events ++ tail)
     = worked_calls events + worked_calls tail
  /\ List.filter is_callback (SetTotalWork n :: events ++ tail)
     = List.filter is_callback tail
  /\ delivered (SetTotalWork n :: events ++ tail) = delivered tail
  /\ finished (SetTotalWork n :: events ++ tail) = finished tail.
Proof.
  intros (H1 & H2 & H3 & H4)%task_events_observed.
  unfold totalWork_calls, delivered, finished in *.
  change (SetTotalWork n :: events ++ tail)
    with ([SetTotalWork n] ++ events ++ tail).
  rewrite !worked_calls_app, !List.filter_app, !omap_app, H1, H2, H3, H4.
  done.
Qed.

End LogFacts.

(** ** The run as a whole *)

Section WholeRun.

Context (E : RegExpEngine) (localeCompare : string -> string -> Z).
Context (searchConfig : SearchConfig) (progress : Progress).
Context (networkLog : list NetworkRequest) (schedule : list nat).

Abbreviation N := (List.length (candidates searchConfig networkLog)).
Abbreviation tasks :=
  (performSearch_tasks E searchConfig progress networkLog schedule initial).
Abbreviation run :=
  (performSearch E localeCompare searchConfig progress networkLog schedule
     initial).

(** The log of a run: [setTotalWork], the events of the tasks, the
    calls after the tasks. *)
Lemma performSearch_run :
  exists events,
    Forall (fun e => task_event e = true) events
    /\ worked_calls events = count returned_result tasks.1
    /\ polls tasks.2 = count settled tasks.1
    /\ List.length tasks.1 = N
    /\ (forall p, p ∈ tasks.1 -> returned_null p = true ->
        exists k, k < polls tasks.2 /\ isCanceled progress k = true)
    /\ run.1 = match Promise_all tasks.1 with
               | StillPending => NeverSettles
               | Rejected => Rejects
               | Fulfilled _ => Resolves
               end
    /\ log run.2
       = SetTotalWork N
         :: events
            ++ match Promise_all tasks.1 with
               | Fulfilled values =>
                   join_events localeCompare values
                     (isCanceled progress (polls tasks.2))
               | _ => []
               end.
Proof.
  unfold performSearch, bind.
  destruct tasks as [promises w1] eqn:Htasks.
  destruct (performSearch_tasks_spec _ _ _ _ _ _ _ Htasks)
    as (((events & Hlog & Hevents & Hworked) & Hpolls & Hnull) & Hlen).
  rewrite performSearch_join_spec.
  simpl in *. exists events. split_and!; try done.
  - intros p Hp Hp_null. destruct (Hnull p Hp Hp_null) as (k & Hk & Hans).
    exists k. split; [lia | done].
  - by destruct (Promise_all promises).
  - destruct (Promise_all promises); simpl; rewrite Hlog; simpl;
      by rewrite ?app_nil_r.
Qed.

End WholeRun.

(** ** Every task resumed: the run settles *)

Section Settles.

Context (E : RegExpEngine) (localeCompare : string -> string -> Z).
Context (searchConfig : SearchConfig) (progress : Progress).

Lemma resume_length promises i w :
  List.length (resume E searchConfig progress promises i w).1
  = List.length promises.
Proof.
  unfold resume. destruct (promises !! i) as [[request bodyMatches|c]|]; try done.
  unfold bind, ret.
  destruct (_searchRequest_continue _ _ _ _ _ _) as [c w1]. simpl.
  by rewrite length_insert.
Qed.

Lemma run_tasks_length schedule promises w :
  List.length (run_tasks E searchConfig progress schedule promises w).1
  = List.length promises.
Proof.
  revert promises w.
  induction schedule as [|i rest IH]; intros promises w; simpl; [done|].
  unfold bind at 1. pose proof (resume_length promises i w) as Hlen.
  destruct (resume E searchConfig progress promises i w) as [promises1 w1].
  rewrite IH. exact Hlen.
Qed.

(** Resuming task [i] settles promise [i] and leaves the settled
    promises as they are. *)
Lemma resume_lookup promises i j w p :
  (resume E searchConfig progress promises i w).1 !! j = Some p ->
  (j = i -> settled p = true)
  /\ (forall p0, promises !! j = Some p0 -> settled p0 = true -> p = p0).
Proof.
  unfold resume.
  destruct (promises !! i) as [[request bodyMatches|c]|] eqn:Hi; simpl.
  - unfold bind, ret.
    destruct (_searchRequest_continue _ _ _ _ _ _) as [c w1]. simpl.
    destruct (decide (j = i)) as [->|Hne].
    + rewrite list_lookup_insert_eq by (by eapply lookup_lt_Some).
      intros [= <-]. split; [done|]. intros p0. rewrite Hi. by intros [= <-].
    + rewrite list_lookup_insert_ne by done.
      intros Hj. split; [done|]. intros p0. rewrite Hj. by intros [= <-].
  - intros Hj. split.
    + intros ->. rewrite Hi in Hj. by injection Hj as <-.
    + intros p0. rewrite Hj. by intros [= <-].
  - intros Hj. split.
    + intros ->. by rewrite Hi in Hj.
    + intros p0. rewrite Hj. by intros [= <-].
Qed.

Lemma run_tasks_settles schedule promises w j p :
  (run_tasks E searchConfig progress schedule promises w).1 !! j = Some p ->
  j ∈ schedule
  \/ (exists p0, promises !! j = Some p0 /\ settled p0 = true) ->
  settled p = true.
Proof.
  revert promises w.
  induction schedule as [|i rest IH]; intros promises w; simpl.
  - intros Hj [[]%elem_of_nil | (p0 & Hp0 & Hsettled)].
    unfold ret in Hj. simpl in Hj. congruence.
  - unfold bind at 1.
    pose proof (resume_length promises i w) as Hlen.
    pose proof (fun p1 => resume_lookup promises i j w p1) as Hlookup.
    destruct (resume E searchConfig progress promises i w)
      as [promises1 w1]. simpl in *.
    intros Hj Hwhy. apply (IH _ _ Hj).
    destruct (promises1 !! j) as [p1|] eqn:Hp1.
    + destruct (Hlookup p1 eq_refl) as [Hi Hkeep].
      destruct Hwhy as [[-> | Hrest]%elem_of_cons | (p0 & Hp0 & Hsettled)].
      * right. exists p1. auto.
      * by left.
      * right. exists p1. split; [done|].
        by rewrite (Hkeep p0 Hp0 Hsettled).
    + left. destruct Hwhy as [[-> | Hrest]%elem_of_cons | (p0 & Hp0 & _)];
        [| done |].
      * apply lookup_ge_None in Hp1.
        pose proof (run_tasks_length rest promises1 w1) as Hlen'.
        apply lookup_lt_Some in Hj. lia.
      * apply lookup_ge_None in Hp1. apply lookup_lt_Some in Hp0. lia.
Qed.

Lemma Promise_all_settled promises :
  Forall (fun p => settled p = true) promises ->
  Promise_all promises <> StillPending.
Proof.
  induction 1 as [|p promises Hp _ IH]; simpl; [done|].
  destruct p as [|[v|]]; try done.
  by destruct (Promise_all promises).
Qed.

(** A schedule that resumes every task lets [performSearch] settle: it
    resolves, or rejects with the exception of a task. *)
Lemma complete_schedule_settles networkLog schedule :
  (forall i, i < List.length (candidates searchConfig networkLog) ->
             i ∈ schedule) ->
  (performSearch E localeCompare searchConfig progress networkLog schedule
     initial).1 <> NeverSettles.
Proof.
  intros Hcomplete.
  destruct (performSearch_run E localeCompare searchConfig progress
              networkLog schedule)
    as (events & _ & _ & _ & Hlen & _ & Hrun & _).
  rewrite Hrun.
  assert (Forall (fun p => settled p = true)
            (performSearch_tasks E searchConfig progress networkLog schedule
               initial).1) as Hsettled.
  { apply Forall_lookup. intros j p Hj.
    assert (j ∈ schedule) as Hin.
    { apply Hcomplete. rewrite <- Hlen. by eapply lookup_lt_Some. }
    revert Hj. unfold performSearch_tasks, bind at 1, emit. simpl.
    unfold bind. destruct (for_requests _ _ _ _ _ _) as [promises1 w1].
    intros Hj. eapply run_tasks_settles; eauto. }
  apply Promise_all_settled in Hsettled.
  by destruct (Promise_all _).
Qed.

End Settles.

(** A run that resolves without any task finding the search cancelled has
    every candidate searched to its end, whatever the schedule. *)
Lemma Forall2_pointwise {A B} (R : A -> B -> Prop) (f : A -> B) l l' :
  Forall2 R l l' ->
  (forall x y, y ∈ l' -> R x y -> y = f x) ->
  l' = map f l.
Proof.
  induction 1 as [|x y l l' Hxy _ IH]; intros Hf; [done|].
  simpl. rewrite (Hf x y) by (done || apply elem_of_cons; by left). f_equal.
  apply IH. intros x' y' Hy'. apply Hf, elem_of_cons. by right.
Qed.

Lemma uncanceled_run
    (E : RegExpEngine) (localeCompare : string -> string -> Z)
    (searchConfig : SearchConfig) (progress : Progress)
    (networkLog : list NetworkRequest) (schedule : list nat) :
  let N := List.length (candidates searchConfig networkLog) in
  let tasks :=
    performSearch_tasks E searchConfig progress networkLog schedule initial in
  (performSearch E localeCompare searchConfig progress networkLog schedule
     initial).1 = Resolves ->
  (forall k, k < N -> isCanceled progress k = false) ->
  tasks.1 = map (fun request => Settled (uncanceled_search E searchConfig request))
              (candidates searchConfig networkLog)
  /\ polls tasks.2 = N
  /\ Forall (fun p => returned_result p = true) tasks.1.
Proof.
  intros N tasks Hresolves Hnever.
  destruct (performSearch_run E localeCompare searchConfig progress networkLog
              schedule)
    as (events & _ & _ & Hpolls & Hlen & Hnull & Hrun & _).
  pose proof (performSearch_tasks_task_of E searchConfig progress networkLog
                schedule initial) as Htasks.
  fold tasks in Hpolls, Hlen, Hnull, Hrun, Htasks |- *.
  rewrite Hresolves in Hrun.
  destruct (Promise_all tasks.1) as [| |values] eqn:Hall; try done.
  apply Promise_all_Fulfilled in Hall.
  assert (polls tasks.2 = N) as HpollsN.
  { unfold N. rewrite Hpolls, <- Hlen, Hall. apply count_all.
    apply Forall_forall. by intros p (v & -> & _)%list_elem_of_fmap. }
  assert (forall p, p ∈ tasks.1 -> exists result, p = Settled (Normal (Some result)))
    as Hresult.
  { intros p Hp. pose proof Hp as Hp'. rewrite Hall in Hp'.
    apply list_elem_of_fmap in Hp' as ([result|] & -> & _); [by eexists|].
    destruct (Hnull _ Hp eq_refl) as (k & Hk & Hans).
    rewrite Hnever in Hans by lia. done. }
  split_and!; [|done|].
  - apply (Forall2_pointwise _ _ _ _ Htasks).
    intros request p Hp Htask. destruct (Hresult p Hp) as (result & ->).
    by destruct Htask as [[=] | [[=] | ->]].
  - apply Forall_forall. intros p Hp. by destruct (Hresult p Hp) as (result & ->).
Qed.

(** ** Claims on the matcher *)

(** C1. Zero-offset restriction: when some token of the query, at its turn,
    has its first occurrence in the remaining substring at offset 0, the
    matcher reports the string as not matching.  The remaining substring
    is the one the rule of the specification arrives at after the tokens
    before. *)
Theorem zero_offset_match_is_rejected
    (E : RegExpEngine) (searchConfig : SearchConfig) (s : string)
    (regExps before after : list (RegExp E)) (regExp : RegExp E)
    (pos : nat) (match0 : string)
    (Hcompile :
       compile E (flags_of searchConfig) (queries searchConfig) = Normal regExps)
    (Htoken : regExps = before ++ regExp :: after)
    (Hremaining : spec_scan E s 0 before pos)
    (Hzero : String_match E (substr s pos) regExp = Some (0, match0)) :
  stringMatchesQuery E searchConfig s = Normal false.
Proof.
  eapply stringMatchesQuery_gives_up; eauto using turn_zero_offset.
Qed.

(** The token [x] first matches [xyz] at position 0: no match. *)
Lemma zero_offset_match_is_rejected_witness :
  String_match Fragment.engine "xyz"
    {| Fragment.atoms := [Fragment.PatternCharacter "x"];
       Fragment.ignore_case := false |} = Some (0, "x")
  /\ stringMatchesQuery Fragment.engine (Examples.config ["x"]) "xyz"
     = Normal false.
Proof.
  split; [reflexivity|].
  eapply (zero_offset_match_is_rejected Fragment.engine (Examples.config ["x"])
            "xyz") with (before := []) (pos := 0) (match0 := "x");
    [reflexivity | reflexivity | constructor | reflexivity].
Defined.

(** C6. Sequential matching in the order of the tokens: a string that the
    matcher accepts has the tokens one after the other, each found as the
    first occurrence at or after the position behind the one before,
    starting at position 0; and the matcher rejects the string as soon as
    a token has no occurrence at or after its position. *)
Theorem sequential_token_matching
    (E : RegExpEngine) (searchConfig : SearchConfig) (s : string)
    (regExps : list (RegExp E))
    (Hcompile :
       compile E (flags_of searchConfig) (queries searchConfig) = Normal regExps) :
  (stringMatchesQuery E searchConfig s = Normal true ->
   exists pos, spec_scan E s 0 regExps pos)
  /\ (forall before regExp after pos,
        regExps = before ++ regExp :: after ->
        spec_scan E s 0 before pos ->
        String_match E (substr s pos) regExp = None ->
        stringMatchesQuery E searchConfig s = Normal false).
Proof.
  split.
  - rewrite (stringMatchesQuery_compiled _ _ _ _ Hcompile).
    intros [= Hgoes]. apply goes_through_true in Hgoes as [pos Hpos].
    exists pos. by apply turns_spec_scan.
  - intros before regExp after pos Htoken Hscan Hnone.
    eapply stringMatchesQuery_gives_up; eauto using turn_no_occurrence.
Qed.

(** The tokens [b], [a] do not match [ab]: behind the [b] there is no [a].
    In the other order the tokens match [-a-b]. *)
Lemma sequential_token_matching_witness :
  stringMatchesQuery Fragment.engine (Examples.config ["b"; "a"]) "ab"
  = Normal false
  /\ stringMatchesQuery Fragment.engine (Examples.config ["a"; "b"]) "-a-b"
     = Normal true.
Proof.
  split; [|reflexivity].
  refine (proj2 (sequential_token_matching Fragment.engine
                   (Examples.config ["b"; "a"]) "ab" _ eq_refl)
            [_] _ [] 2 eq_refl _ eq_refl).
  eapply (spec_scan_token _ _ 0 _ [] 1 "b"); [reflexivity | constructor].
Defined.

(** C7. A query without tokens matches every string. *)
Theorem empty_token_list_matches_everything
    (E : RegExpEngine) (searchConfig : SearchConfig) (s : string)
    (Hempty : queries searchConfig = []) :
  stringMatchesQuery E searchConfig s = Normal true.
Proof. unfold stringMatchesQuery. by rewrite Hempty. Qed.

Lemma empty_token_list_matches_everything_witness :
  stringMatchesQuery Fragment.engine (Examples.config []) "xyz" = Normal true.
Proof.
  apply (empty_token_list_matches_everything Fragment.engine
           (Examples.config []) "xyz").
  reflexivity.
Defined.

(** ** Claims on the locations of one candidate *)

(** C5. Order of the match locations of one candidate: a search of a
    candidate that returns a result lists the URL match (if any), then the
    matching request headers in their given order, then the matching
    response headers in their given order, then the body matches in their
    order. *)
Theorem match_locations_in_discovery_order
    (E : RegExpEngine) (searchConfig : SearchConfig) (progress : Progress)
    (request : NetworkRequest) (bodyMatches : list SearchMatch)
    (w w' : World) (result : NetworkSearchResult)
    (Hresult :
       _searchRequest_continue E searchConfig progress request bodyMatches w
       = (Normal (Some result), w')) :
  exists matches : string -> bool,
    (forall s, stringMatchesQuery E searchConfig s = Normal (matches s))
    /\ _request result = request
    /\ _locations result = spec_discovery_order matches request bodyMatches.
Proof.
  revert Hresult. unfold _searchRequest_continue, bind, poll, ret, emit.
  destruct (isCanceled progress (polls w)); [done|].
  destruct (collect_locations E searchConfig request bodyMatches)
    as [locations|] eqn:Hcollect; [|done].
  intros [= <- _].
  apply collect_locations_Normal in Hcollect as (regExps & Hcompile & ->).
  exists (goes_through E regExps). split; [|done].
  intros s. by apply stringMatchesQuery_compiled.
Qed.

(** A script whose URL, one request header and one body line match the
    token [foo]: the locations are the URL, the header, the body line. *)
Lemma match_locations_in_discovery_order_witness :
  let request := Examples.script "a.js" in
  let result :=
    NetworkSearchResult.new request
      [UIRequestLocation.urlMatch request;
       UIRequestLocation.requestHeaderMatch request (Some Examples.accept);
       UIRequestLocation.bodyMatch request (Some Examples.line3)] in
  exists matches : string -> bool,
    (forall s,
       stringMatchesQuery Fragment.engine (Examples.config ["foo"]) s
       = Normal (matches s))
    /\ _request result = request
    /\ _locations result
       = spec_discovery_order matches request [Examples.line3].
Proof.
  intros request result.
  apply (match_locations_in_discovery_order Fragment.engine
           (Examples.config ["foo"]) Examples.never_canceled request
           [Examples.line3] initial
           {| polls := 1; log := [Worked] |} result).
  reflexivity.
Defined.

(** C9, as amended.  The location made by [urlMatch], and the locations made
    by [requestHeaderMatch], [responseHeaderMatch] and [bodyMatch] from a
    header or a search match that is not [null], have exactly one
    discriminating field set, and the accessors resolve them to that one
    kind; all the locations that [_searchRequest] collects are of this
    form. *)
Theorem constructors_set_exactly_one_field
    (request : NetworkRequest) (header : NameValue) (m : SearchMatch) :
  resolves_to (UIRequestLocation.urlMatch request) UrlKind
  /\ resolves_to (UIRequestLocation.requestHeaderMatch request (Some header))
       (RequestHeaderKind header)
  /\ resolves_to (UIRequestLocation.responseHeaderMatch request (Some header))
       (ResponseHeaderKind header)
  /\ resolves_to (UIRequestLocation.bodyMatch request (Some m)) (BodyKind m)
  /\ (forall E searchConfig bodyMatches locations,
        collect_locations E searchConfig request bodyMatches = Normal locations ->
        Forall (fun l => exists k, resolves_to l k) locations).
Proof.
  assert (forall request' header' m',
    resolves_to (UIRequestLocation.urlMatch request') UrlKind
    /\ resolves_to (UIRequestLocation.requestHeaderMatch request' (Some header'))
         (RequestHeaderKind header')
    /\ resolves_to (UIRequestLocation.responseHeaderMatch request' (Some header'))
         (ResponseHeaderKind header')
    /\ resolves_to (UIRequestLocation.bodyMatch request' (Some m')) (BodyKind m'))
    as Hconstructors.
  { intros request' header' m'.
    repeat split; simpl; try done;
      try (intros [| | |]; simpl; intros (? & ? & ? & ?); congruence);
      unfold NetworkSearchResult.matchLineContent,
        NetworkSearchResult.matchLabel;
      by match goal with H : _ !! _ = Some _ |- _ => rewrite H end. }
  destruct (Hconstructors request header m) as (Hu & Hq & Hp & Hb).
  refine (conj Hu (conj Hq (conj Hp (conj Hb _)))).
  intros E searchConfig bodyMatches locations
    (regExps & _ & ->)%collect_locations_Normal.
  apply Forall_forall. intros l Hl.
  apply spec_discovery_order_elem in Hl
    as [-> | [(h & _ & ->) | [(h & _ & ->) | (b & _ & ->)]]].
  - exists UrlKind. apply (Hconstructors request header m).
  - exists (RequestHeaderKind h). apply (Hconstructors request h m).
  - exists (ResponseHeaderKind h). apply (Hconstructors request h m).
  - exists (BodyKind b). apply (Hconstructors request header b).
Qed.

Lemma constructors_set_exactly_one_field_witness :
  Forall (fun l => exists k, resolves_to l k)
    [UIRequestLocation.urlMatch (Examples.script "a.js");
     UIRequestLocation.requestHeaderMatch (Examples.script "a.js")
       (Some Examples.accept);
     UIRequestLocation.bodyMatch (Examples.script "a.js") (Some Examples.line3)].
Proof.
  refine (proj2 (proj2 (proj2 (proj2
            (constructors_set_exactly_one_field (Examples.script "a.js")
               Examples.accept Examples.line3))))
            Fragment.engine (Examples.config ["foo"]) [Examples.line3] _ _).
  reflexivity.
Defined.

(** C9, as stated, fails: [requestHeaderMatch] takes a header that may be
    [null], and the location it then makes has no discriminating field set;
    the accessors throw on it. *)
Lemma constructor_given_null_sets_no_field :
  let l := UIRequestLocation.requestHeaderMatch Examples.image None in
  fields_set l = 0
  /\ (forall k, ~ has_kind l k)
  /\ NetworkSearchResult.matchLineContent
       (NetworkSearchResult.new Examples.image [l]) 0 = Throw
  /\ NetworkSearchResult.matchLabel
       (NetworkSearchResult.new Examples.image [l]) 0 = Throw.
Proof.
  simpl. repeat split.
  intros [| | |]; simpl; intros (? & ? & ? & ?); congruence.
Qed.

(** C10. The [isRegex] flag has no part in the matching of URLs and
    headers: two configurations with the same tokens and the same
    [ignoreCase] flag match the same strings and collect the same locations;
    every token goes to [new RegExp] with flags that [ignoreCase] alone
    decides, so the matcher throws exactly when a token is no regular
    expression; [isRegex()] is passed on in the call of [searchInContent].
    Whatever [isRegex()] says, a URL or header text is accepted exactly when
    it matches the tokens taken as regular expressions, refused exactly
    when it does not, and a candidate has the location of its URL or of a
    header exactly when that text matches the tokens taken as regular
    expressions. *)
Theorem isRegex_reaches_only_the_body_search
    (E : RegExpEngine) (searchConfig searchConfig' : SearchConfig)
    (Hqueries : queries searchConfig = queries searchConfig')
    (HignoreCase : ignoreCase searchConfig = ignoreCase searchConfig') :
  (forall s,
     stringMatchesQuery E searchConfig s = stringMatchesQuery E searchConfig' s)
  /\ (forall request bodyMatches,
        collect_locations E searchConfig request bodyMatches
        = collect_locations E searchConfig' request bodyMatches)
  /\ (forall s,
        stringMatchesQuery E searchConfig s = Throw <->
        exists token,
          token ∈ queries searchConfig
          /\ RegExp_new E token (if ignoreCase searchConfig then "i" else "")
             = Throw)
  /\ (forall progress request w,
        isTextType request = true ->
        log (_searchRequest E searchConfig progress request w).2
        = log w
          ++ [SearchInContent request (query searchConfig)
                (negb (ignoreCase searchConfig)) (isRegex searchConfig)])
  /\ (forall s,
        stringMatchesQuery E searchConfig s = Normal true
        <-> spec_matches_as_regexps E searchConfig s)
  /\ (forall s regExps,
        spec_tokens_as_regexps E searchConfig regExps ->
        stringMatchesQuery E searchConfig s = Normal false
        <-> ~ spec_regexp_scan E s 0 regExps)
  /\ (forall request bodyMatches locations,
        collect_locations E searchConfig request bodyMatches
        = Normal locations ->
        (UIRequestLocation.urlMatch request ∈ locations
         <-> spec_matches_as_regexps E searchConfig (url request))
        /\ (forall header,
              UIRequestLocation.requestHeaderMatch request (Some header)
              ∈ locations
              <-> header ∈ requestHeaders request
                  /\ spec_matches_as_regexps E searchConfig
                       (name header +:+ ": " +:+ value header))
        /\ (forall header,
              UIRequestLocation.responseHeaderMatch request (Some header)
              ∈ locations
              <-> header ∈ responseHeaders request
                  /\ spec_matches_as_regexps E searchConfig
                       (name header +:+ ": " +:+ value header))).
Proof.
  assert (forall s,
    stringMatchesQuery E searchConfig s = stringMatchesQuery E searchConfig' s)
    as Hsame.
  { intros s. unfold stringMatchesQuery, flags_of.
    by rewrite Hqueries, HignoreCase. }
  assert (forall location_of headers locations,
    for_headers E searchConfig location_of headers locations
    = for_headers E searchConfig' location_of headers locations) as Hheaders.
  { intros location_of headers.
    induction headers as [|header rest IH]; intros locations; [done|].
    simpl. unfold headerMatchesQuery. rewrite Hsame.
    destruct (stringMatchesQuery E searchConfig' _); [simpl; apply IH | done]. }
  split_and!; [done| | | | | |].
  - intros request bodyMatches. unfold collect_locations.
    rewrite Hsame. destruct (stringMatchesQuery E searchConfig' _); [|done].
    simpl. rewrite Hheaders.
    destruct (for_headers E searchConfig' _ _ _); [simpl | done].
    by rewrite Hheaders.
  - intros s. rewrite <- (compile_Throw E). unfold stringMatchesQuery, flags_of.
    by destruct (compile E _ (queries searchConfig)).
  - intros progress request w Htext. unfold _searchRequest.
    by rewrite Htext.
  - apply stringMatchesQuery_as_regexps.
  - intros s regExps Hcompile%compile_Normal.
    rewrite (stringMatchesQuery_compiled _ _ _ _ Hcompile).
    rewrite <- turns_regexp_scan, <- goes_through_true.
    destruct (goes_through E regExps s); split; done.
  - intros request bodyMatches locations
      (regExps & Hcompile & ->)%collect_locations_Normal.
    assert (forall s,
      goes_through E regExps s = true
      <-> spec_matches_as_regexps E searchConfig s) as Hmatches.
    { intros s. rewrite <- stringMatchesQuery_as_regexps.
      rewrite (stringMatchesQuery_compiled _ _ _ _ Hcompile).
      split; [by intros -> | by intros [= ->]]. }
    split_and!.
    + rewrite <- Hmatches. apply spec_discovery_order_url.
    + intros header. rewrite <- Hmatches.
      apply spec_discovery_order_request_header.
    + intros header. rewrite <- Hmatches.
      apply spec_discovery_order_response_header.
Qed.

(** The token [a.c] of a plain-text query ([isRegex()] is [false]) is
    matched as a regular expression: it matches [xabc], where the text
    [a.c] does not occur, as it does for the query with [isRegex()] true;
    and the text [a.c] at the start of a URL is no match. *)
Lemma isRegex_reaches_only_the_body_search_witness :
  isRegex (Examples.config ["a.c"]) = false
  /\ stringMatchesQuery Fragment.engine (Examples.config ["a.c"]) "xabc"
     = stringMatchesQuery Fragment.engine (Examples.config_with true ["a.c"])
         "xabc"
  /\ spec_matches_as_regexps Fragment.engine (Examples.config ["a.c"]) "xabc"
  /\ ~ spec_matches_as_regexps Fragment.engine (Examples.config ["a.c"])
        "a.c/x".
Proof.
  destruct (isRegex_reaches_only_the_body_search Fragment.engine
              (Examples.config ["a.c"]) (Examples.config_with true ["a.c"])
              eq_refl eq_refl)
    as (Hsame & _ & _ & _ & Htrue & _ & _).
  split; [reflexivity|]. split; [apply Hsame|]. split.
  - apply Htrue. reflexivity.
  - intros Hmatch%Htrue. discriminate Hmatch.
Defined.

(** ** Claims on the run *)

(** C2. Cancellation suppresses all output: when all the tasks have been
    awaited and [progress.isCanceled()] then answers [true], the run calls
    [searchResultCallback] not at all and [searchFinishedCallback] exactly
    once, with [false], whatever the tasks have found. *)
Theorem cancellation_suppresses_output
    (E : RegExpEngine) (localeCompare : string -> string -> Z)
    (searchConfig : SearchConfig) (progress : Progress)
    (networkLog : list NetworkRequest) (schedule : list nat)
    (values : list (option NetworkSearchResult))
    (Hawaited :
       Promise_all
         (performSearch_tasks E searchConfig progress networkLog schedule
            initial).1
       = Fulfilled values)
    (Hcanceled :
       isCanceled progress
         (polls (performSearch_tasks E searchConfig progress networkLog
                   schedule initial).2)
       = true) :
  let run :=
    performSearch E localeCompare searchConfig progress networkLog schedule
      initial in
  run.1 = Resolves
  /\ delivered (log run.2) = []
  /\ finished (log run.2) = [false]
  /\ List.filter is_callback (log run.2) = [SearchFinishedCallback false].
Proof.
  destruct (performSearch_run E localeCompare searchConfig progress networkLog
              schedule)
    as (events & Hevents & _ & _ & _ & _ & Hrun & Hlog).
  rewrite Hawaited in Hrun, Hlog. rewrite Hcanceled in Hlog.
  simpl. rewrite Hlog.
  by destruct (run_observed
                 (List.length (candidates searchConfig networkLog)) events
                 (join_events localeCompare values true) Hevents)
    as (_ & _ & -> & -> & ->).
Qed.

(** Three scripts match and their tasks return results; then the search
    is cancelled: nothing is delivered. *)
Lemma cancellation_suppresses_output_witness :
  let network := [Examples.script "c.js"; Examples.script "a.js";
                  Examples.script "b.js"] in
  let run := Examples.run ["foo"] (Examples.canceled_after 3) network [2; 0; 1] in
  worked_calls (log run.2) = 3
  /\ run.1 = Resolves
  /\ delivered (log run.2) = []
  /\ finished (log run.2) = [false]
  /\ List.filter is_callback (log run.2) = [SearchFinishedCallback false].
Proof.
  split; [reflexivity|].
  apply (cancellation_suppresses_output Fragment.engine
           Fragment.compare_code_units (Examples.config ["foo"])
           (Examples.canceled_after 3)
           [Examples.script "c.js"; Examples.script "a.js";
            Examples.script "b.js"] [2; 0; 1]
           [Some (Examples.script_result "c.js");
            Some (Examples.script_result "a.js");
            Some (Examples.script_result "b.js")]);
    reflexivity.
Defined.

(** C8. Results without locations are not surfaced: every result handed to
    [searchResultCallback] has at least one match location, and is what the
    search of one of the candidates returned. *)
Theorem empty_results_are_not_surfaced
    (E : RegExpEngine) (localeCompare : string -> string -> Z)
    (searchConfig : SearchConfig) (progress : Progress)
    (networkLog : list NetworkRequest) (schedule : list nat)
    (result : NetworkSearchResult)
    (Hdelivered :
       result ∈ delivered
                  (log (performSearch E localeCompare searchConfig progress
                          networkLog schedule initial).2)) :
  0 < NetworkSearchResult.matchesCount result
  /\ exists request,
       request ∈ candidates searchConfig networkLog
       /\ uncanceled_search E searchConfig request = Normal (Some result).
Proof.
  destruct (performSearch_run E localeCompare searchConfig progress networkLog
              schedule)
    as (events & Hevents & _ & _ & _ & _ & _ & Hlog).
  pose proof (performSearch_tasks_task_of E searchConfig progress networkLog
                schedule initial) as Htasks.
  rewrite Hlog in Hdelivered.
  set (t := performSearch_tasks E searchConfig progress networkLog schedule
              initial) in *.
  destruct (run_observed (List.length (candidates searchConfig networkLog))
              events
              match Promise_all t.1 with
              | Fulfilled values =>
                  join_events localeCompare values
                    (isCanceled progress (polls t.2))
              | _ => []
              end Hevents) as (_ & _ & _ & Hd & _).
  rewrite Hd in Hdelivered. clear Hd Hlog.
  destruct (Promise_all t.1) as [| |values] eqn:Hall;
    [by apply elem_of_nil in Hdelivered..|].
  destruct (join_events_observed localeCompare values
              (isCanceled progress (polls t.2))) as (_ & _ & _ & Hjd & _).
  rewrite Hjd in Hdelivered.
  destruct (isCanceled progress _); [by apply elem_of_nil in Hdelivered|].
  apply list_elem_of_In, filter_In in Hdelivered as [Hin Hcount].
  split; [by apply Nat.ltb_lt|].
  apply list_elem_of_In in Hin. rewrite Array_sort_Permutation in Hin.
  apply list_elem_of_omap in Hin as (v & Hv & Hsome). simpl in Hsome. subst v.
  apply Promise_all_Fulfilled in Hall.
  assert (Settled (Normal (Some result)) ∈ t.1) as Hp.
  { rewrite Hall. apply list_elem_of_fmap. by exists (Some result). }
  apply list_elem_of_lookup in Hp as [i Hi].
  destruct (Forall2_lookup_r _ _ _ _ _ Htasks Hi) as (request & Hr & Htask).
  exists request. split; [by eapply list_elem_of_lookup_2|].
  by destruct Htask as [[=] | [[=] | [= <-]]].
Qed.

(** Of a script that matches and an image that does not, both searched to
    the end, only the script is delivered. *)
Lemma empty_results_are_not_surfaced_witness :
  let run :=
    Examples.run ["foo"] Examples.never_canceled
      [Examples.image; Examples.script "a.js"] [1] in
  worked_calls (log run.2) = 2
  /\ delivered (log run.2) = [Examples.script_result "a.js"]
  /\ 0 < NetworkSearchResult.matchesCount (Examples.script_result "a.js")
  /\ exists request,
       request ∈ [Examples.image; Examples.script "a.js"]
       /\ uncanceled_search Fragment.engine (Examples.config ["foo"]) request
          = Normal (Some (Examples.script_result "a.js")).
Proof.
  split; [reflexivity|]. split; [reflexivity|].
  apply (empty_results_are_not_surfaced Fragment.engine
           Fragment.compare_code_units (Examples.config ["foo"])
           Examples.never_canceled [Examples.image; Examples.script "a.js"] [1]
           (Examples.script_result "a.js")).
  apply list_elem_of_In. left. reflexivity.
Defined.




(** C4. Deterministic sorted emission: with a consistent locale-aware
    comparison, the results reach [searchResultCallback] in ascending order
    of their labels; in a run that is not cancelled they are the results
    with a match that the tasks returned; and the calls of the callbacks do
    not depend on the order in which the tasks resolved: two runs that
    resolve, with no task finding the search cancelled, make the same calls
    in the same order. *)
Theorem results_delivered_in_label_order
    (E : RegExpEngine) (localeCompare : string -> string -> Z)
    (searchConfig : SearchConfig) (progress : Progress)
    (networkLog : list NetworkRequest) (schedule : list nat)
    (Htotal : forall s1 s2,
       (localeCompare s1 s2 <= 0)%Z \/ (localeCompare s2 s1 <= 0)%Z)
    (Htrans : forall s1 s2 s3,
       (localeCompare s1 s2 <= 0)%Z -> (localeCompare s2 s3 <= 0)%Z ->
       (localeCompare s1 s3 <= 0)%Z) :
  let N := List.length (candidates searchConfig networkLog) in
  let tasks :=
    performSearch_tasks E searchConfig progress networkLog schedule initial in
  let run :=
    performSearch E localeCompare searchConfig progress networkLog schedule
      initial in
  StronglySorted (comes_before (compare_labels localeCompare))
    (delivered (log run.2))
  /\ (forall values,
        Promise_all tasks.1 = Fulfilled values ->
        isCanceled progress (polls tasks.2) = false ->
        delivered (log run.2)
        ≡ₚ List.filter (fun result =>
                          0 <? NetworkSearchResult.matchesCount result)
             (omap id values))
  /\ (forall schedule',
        let run' :=
          performSearch E localeCompare searchConfig progress networkLog
            schedule' initial in
        run.1 = Resolves -> run'.1 = Resolves ->
        (forall k, k < N -> isCanceled progress k = false) ->
        List.filter is_callback (log run'.2)
        = List.filter is_callback (log run.2)).
Proof.
  intros N tasks run. subst N.
  assert (delivered (log run.2)
          = match Promise_all tasks.1 with
            | Fulfilled values =>
                if isCanceled progress (polls tasks.2) then []
                else List.filter (fun result =>
                                    0 <? NetworkSearchResult.matchesCount result)
                       (Array_sort (compare_labels localeCompare)
                          (omap id values))
            | _ => []
            end) as Hdelivered.
  { destruct (performSearch_run E localeCompare searchConfig progress
                networkLog schedule)
      as (events & Hevents & _ & _ & _ & _ & _ & Hlog).
    fold run tasks in Hlog. rewrite Hlog.
    destruct (run_observed
                (List.length (candidates searchConfig networkLog)) events
                match Promise_all tasks.1 with
                | Fulfilled values =>
                    join_events localeCompare values
                      (isCanceled progress (polls tasks.2))
                | _ => []
                end Hevents) as (_ & _ & _ & -> & _).
    destruct (Promise_all tasks.1) as [| |values]; [done..|].
    by destruct (join_events_observed localeCompare values
                   (isCanceled progress (polls tasks.2)))
      as (_ & _ & _ & -> & _). }
  split_and!.
  - rewrite Hdelivered.
    destruct (Promise_all tasks.1) as [| |values]; [constructor..|].
    destruct (isCanceled progress _); [constructor|].
    apply filter_StronglySorted, Array_sort_StronglySorted.
    + intros r1 r2. apply Htotal.
    + intros r1 r2 r3. apply Htrans.
  - intros values Hall Hgoes. rewrite Hdelivered, Hall, Hgoes.
    apply filter_Permutation, Array_sort_Permutation.
  - clear Hdelivered.
    intros schedule' run' Hresolves Hresolves' Hnever.
    assert (forall sched,
      (performSearch E localeCompare searchConfig progress networkLog sched
         initial).1 = Resolves ->
      List.filter is_callback
        (log (performSearch E localeCompare searchConfig progress networkLog
                sched initial).2)
      = List.filter is_callback
          (join_events localeCompare
             (map (fun request =>
                     match uncanceled_search E searchConfig request with
                     | Normal v => v
                     | Throw => None
                     end) (candidates searchConfig networkLog))
             (isCanceled progress
                (List.length (candidates searchConfig networkLog))))) as Hsame.
    { intros sched Hres.
      destruct (uncanceled_run E localeCompare searchConfig progress
                  networkLog sched Hres Hnever) as (Htasks & Hpolls & _).
      destruct (performSearch_run E localeCompare searchConfig progress
                  networkLog sched)
        as (events & Hevents & _ & _ & _ & _ & Hrun & Hlog).
      rewrite Hlog, Hpolls. rewrite Hres in Hrun.
      destruct (run_observed
                (List.length (candidates searchConfig networkLog)) events
                  match Promise_all (performSearch_tasks E searchConfig
                          progress networkLog sched initial).1 with
                  | Fulfilled values =>
                      join_events localeCompare values
                        (isCanceled progress
                           (List.length (candidates searchConfig networkLog)))
                  | _ => []
                  end Hevents) as (_ & _ & -> & _).
      destruct (Promise_all _) as [| |values] eqn:Hall; try done.
      apply Promise_all_Fulfilled in Hall. rewrite Htasks in Hall.
      do 2 f_equal. clear -Hall. revert values Hall.
      induction (candidates searchConfig networkLog) as [|request rest IH];
        intros [|v values]; simpl; try done.
      intros [= Hv Hrest]. rewrite Hv. f_equal. by apply IH. }
    unfold run', run. by rewrite !Hsame.
Qed.

(** Three scripts labelled [c.js], [a.js], [b.js] reach the sink in the
    order [a.js], [b.js], [c.js], in whichever order their tasks resolve. *)
Lemma results_delivered_in_label_order_witness :
  let network := [Examples.script "c.js"; Examples.script "a.js";
                  Examples.script "b.js"] in
  let run := Examples.run ["foo"] Examples.never_canceled network [2; 0; 1] in
  let run' := Examples.run ["foo"] Examples.never_canceled network [1; 2; 0] in
  map NetworkSearchResult.label (delivered (log run.2))
  = ["a.js"; "b.js"; "c.js"]
  /\ StronglySorted
       (comes_before (compare_labels Fragment.compare_code_units))
       (delivered (log run.2))
  /\ List.filter is_callback (log run'.2) = List.filter is_callback (log run.2).
Proof.
  split; [reflexivity|].
  destruct (results_delivered_in_label_order Fragment.engine
              Fragment.compare_code_units (Examples.config ["foo"])
              Examples.never_canceled
              [Examples.script "c.js"; Examples.script "a.js";
               Examples.script "b.js"] [2; 0; 1]
              compare_code_units_total compare_code_units_trans)
    as (Hsorted & _ & Hsame).
  split; [exact Hsorted|].
  exact (Hsame [1; 2; 0] eq_refl eq_refl (fun k _ => eq_refl)).
Defined.

(** * Further properties *)

(** ** The calls a run makes *)

Section RunCalls.

Context (E : RegExpEngine) (localeCompare : string -> string -> Z).
Context (searchConfig : SearchConfig) (progress : Progress).

Lemma body_searches_app events1 events2 :
  body_searches (events1 ++ events2)
  = body_searches events1 ++ body_searches events2.
Proof. apply omap_app. Qed.

Lemma done_calls_app events1 events2 :
  done_calls (events1 ++ events2) = done_calls events1 + done_calls events2.
Proof. apply count_app. Qed.

(** A task, from its check of [isCanceled()] on, logs [worked()] at most. *)
Lemma continue_log request bodyMatches w :
  exists k,
    log (_searchRequest_continue E searchConfig progress request bodyMatches
           w).2
    = log w ++ replicate k Worked.
Proof.
  destruct (_searchRequest_continue_spec E searchConfig progress request
              bodyMatches w) as (c & -> & _).
  destruct (returned_result (Settled c)); [by exists 1 | by exists 0].
Qed.

Lemma replicate_Worked_observed k :
  body_searches (replicate k Worked) = []
  /\ done_calls (replicate k Worked) = 0
  /\ Forall (fun e => task_event e = true) (replicate k Worked).
Proof.
  induction k as [|k (IH1 & IH2 & IH3)]; [done|].
  split_and!; [done | done | by constructor].
Qed.

Lemma resume_log promises i w :
  exists k,
    log (resume E searchConfig progress promises i w).2
    = log w ++ replicate k Worked.
Proof.
  unfold resume.
  destruct (promises !! i) as [[request bodyMatches|c]|];
    try (exists 0; simpl; by rewrite app_nil_r).
  unfold bind, ret.
  destruct (continue_log request bodyMatches w) as [k Hk].
  destruct (_searchRequest_continue _ _ _ _ _ _) as [c w1].
  by exists k.
Qed.

Lemma run_tasks_log schedule promises w :
  exists k,
    log (run_tasks E searchConfig progress schedule promises w).2
    = log w ++ replicate k Worked.
Proof.
  revert promises w.
  induction schedule as [|i rest IH]; intros promises w; simpl.
  - exists 0. simpl. by rewrite app_nil_r.
  - unfold bind at 1. destruct (resume_log promises i w) as [k1 Hk1].
    destruct (resume E searchConfig progress promises i w) as [promises1 w1].
    destruct (IH promises1 w1) as [k2 Hk2].
    exists (k1 + k2). simpl in Hk1.
    by rewrite Hk2, Hk1, <- app_assoc, replicate_add.
Qed.

(** The call of [_searchRequest] makes the call of [searchInContent], if
    the request is of a text type, and no other. *)
Lemma _searchRequest_body_searches request w :
  body_searches (log (_searchRequest E searchConfig progress request w).2)
  = body_searches (log w)
    ++ (if isTextType request
        then [(request, query searchConfig, negb (ignoreCase searchConfig),
               isRegex searchConfig)]
        else []).
Proof.
  unfold _searchRequest. destruct (isTextType request).
  - unfold bind, emit, ret. simpl. by rewrite body_searches_app.
  - unfold bind, ret.
    destruct (continue_log request [] w) as [k Hk].
    destruct (_searchRequest_continue _ _ _ _ _ _) as [c w1].
    simpl in *. rewrite Hk, body_searches_app.
    by destruct (replicate_Worked_observed k) as (-> & _).
Qed.

Lemma for_requests_body_searches requests promises w :
  body_searches
    (log (for_requests E searchConfig progress requests promises w).2)
  = body_searches (log w)
    ++ map (fun request =>
              (request, query searchConfig, negb (ignoreCase searchConfig),
               isRegex searchConfig))
         (List.filter isTextType requests).
Proof.
  revert promises w.
  induction requests as [|request rest IH]; intros promises w; simpl.
  - by rewrite app_nil_r.
  - unfold bind at 1.
    pose proof (_searchRequest_body_searches request w) as Hstart.
    destruct (_searchRequest E searchConfig progress request w)
      as [promise w1].
    rewrite IH. simpl in Hstart. rewrite Hstart, <- app_assoc.
    by destruct (isTextType request).
Qed.

(** The log of a run is the log of its tasks and the calls after them. *)
Lemma performSearch_log_split networkLog schedule :
  let tasks :=
    performSearch_tasks E searchConfig progress networkLog schedule initial in
  log (performSearch E localeCompare searchConfig progress networkLog
         schedule initial).2
  = log tasks.2
    ++ match Promise_all tasks.1 with
       | Fulfilled values =>
           join_events localeCompare values
             (isCanceled progress (polls tasks.2))
       | _ => []
       end.
Proof.
  intros tasks. unfold performSearch, bind. fold tasks.
  destruct tasks as [promises w1]. rewrite performSearch_join_spec. simpl.
  destruct (Promise_all promises); simpl; by rewrite ?app_nil_r.
Qed.

Lemma join_events_no_task_calls values canceled :
  body_searches (join_events localeCompare values canceled) = []
  /\ done_calls (join_events localeCompare values canceled)
     = if canceled then 0 else 1.
Proof.
  unfold join_events. destruct canceled; [done|].
  rewrite body_searches_app, done_calls_app. unfold body_searches, done_calls.
  generalize (List.filter
                (fun result => 0 <? NetworkSearchResult.matchesCount result)
                (Array_sort (compare_labels localeCompare) (omap id values))).
  intros results. induction results as [|r results [IH1 IH2]]; [done|].
  split; [exact IH1 | exact IH2].
Qed.

End RunCalls.

(** X1. Every run calls [searchInContent] exactly once for each candidate
    of a text type, in the order of the candidates, with the query, the
    negated [ignoreCase] flag and the [isRegex] flag, and for no other
    request: cancellation and the order of the tasks change nothing of
    this. *)
Theorem body_search_calls
    (E : RegExpEngine) (localeCompare : string -> string -> Z)
    (searchConfig : SearchConfig) (progress : Progress)
    (networkLog : list NetworkRequest) (schedule : list nat) :
  body_searches
    (log (performSearch E localeCompare searchConfig progress networkLog
            schedule initial).2)
  = map (fun request =>
           (request, query searchConfig, negb (ignoreCase searchConfig),
            isRegex searchConfig))
      (List.filter isTextType (candidates searchConfig networkLog)).
Proof.
  rewrite performSearch_log_split, body_searches_app.
  assert (body_searches
            match Promise_all (performSearch_tasks E searchConfig progress
                                 networkLog schedule initial).1 with
            | Fulfilled values =>
                join_events localeCompare values
                  (isCanceled progress
                     (polls (performSearch_tasks E searchConfig progress
                               networkLog schedule initial).2))
            | _ => []
            end = []) as ->.
  { destruct (Promise_all _); try done. apply join_events_no_task_calls. }
  rewrite app_nil_r.
  unfold performSearch_tasks, bind at 1, emit. simpl. unfold bind.
  pose proof (for_requests_body_searches E searchConfig progress
                (candidates searchConfig networkLog) []
                {| polls := 0;
                   log := [SetTotalWork
                             (List.length (candidates searchConfig networkLog))] |})
    as Hfor.
  destruct (for_requests _ _ _ _ _ _) as [promises1 w1].
  destruct (run_tasks_log E searchConfig progress schedule promises1 w1)
    as [k Hk].
  rewrite Hk, body_searches_app.
  destruct (replicate_Worked_observed k) as (-> & _).
  rewrite app_nil_r. exact Hfor.
Qed.

(** ** How a run ends *)

Section RunEnds.

Context (E : RegExpEngine) (localeCompare : string -> string -> Z).
Context (searchConfig : SearchConfig) (progress : Progress).
Context (networkLog : list NetworkRequest) (schedule : list nat).

Abbreviation N := (List.length (candidates searchConfig networkLog)).
Abbreviation tasks :=
  (performSearch_tasks E searchConfig progress networkLog schedule initial).
Abbreviation run :=
  (performSearch E localeCompare searchConfig progress networkLog schedule
     initial).

Lemma task_events_no_done events :
  Forall (fun e => task_event e = true) events -> done_calls events = 0.
Proof.
  unfold done_calls, count.
  induction 1 as [|e events He _ IH]; [done|]. by destruct e.
Qed.

(** A run that does not resolve has called neither callback, nor
    [progress.done()]. *)
Lemma unresolved_run_is_silent :
  run.1 <> Resolves ->
  List.filter is_callback (log run.2) = [] /\ done_calls (log run.2) = 0.
Proof.
  destruct (performSearch_run E localeCompare searchConfig progress networkLog
              schedule)
    as (events & Hevents & _ & _ & _ & _ & Hrun & Hlog).
  rewrite Hrun, Hlog.
  destruct (Promise_all tasks.1); [|
    |done]; intros _; rewrite app_nil_r;
    change (SetTotalWork N :: events) with ([SetTotalWork N] ++ events);
    rewrite List.filter_app, done_calls_app, (task_events_no_done _ Hevents);
    by destruct (task_events_observed events Hevents) as (_ & -> & _).
Qed.

(** A run that resolves ends with the one call of
    [searchFinishedCallback]; [progress.done()] is called once, directly
    before it, when the flag is [true], and not at all when it is
    [false]. *)
Lemma resolved_run_ends :
  run.1 = Resolves ->
  exists values,
    Promise_all tasks.1 = Fulfilled values
    /\ let b := negb (isCanceled progress (polls tasks.2)) in
       finished (log run.2) = [b]
       /\ last (log run.2) = Some (SearchFinishedCallback b)
       /\ done_calls (log run.2) = (if b then 1 else 0)
       /\ delivered (log run.2)
          = (if b then surfaced localeCompare values else [])
       /\ (b = true ->
           exists before,
             log run.2 = before ++ [Done; SearchFinishedCallback true]).
Proof.
  destruct (performSearch_run E localeCompare searchConfig progress networkLog
              schedule)
    as (events & Hevents & _ & _ & _ & _ & Hrun & Hlog).
  rewrite Hrun, Hlog.
  destruct (Promise_all tasks.1) as [| |values]; try done.
  intros _. exists values. split; [done|].
  destruct (run_observed N events
              (join_events localeCompare values
                 (isCanceled progress (polls tasks.2))) Hevents)
    as (_ & _ & _ & -> & ->).
  destruct (join_events_observed localeCompare values
              (isCanceled progress (polls tasks.2)))
    as (_ & _ & _ & -> & ->).
  change (SetTotalWork N :: events ++ ?tail)
    with ([SetTotalWork N] ++ events ++ tail).
  rewrite !done_calls_app, (task_events_no_done _ Hevents).
  destruct (join_events_no_task_calls localeCompare values
              (isCanceled progress (polls tasks.2))) as [_ ->].
  unfold join_events, surfaced.
  destruct (isCanceled progress (polls tasks.2)); simpl.
  - split_and!; try done. by rewrite app_comm_cons, last_snoc.
  - split_and!; try done.
    + change [Done; SearchFinishedCallback true]
        with ([Done] ++ [SearchFinishedCallback true]).
      by rewrite !app_assoc, app_comm_cons, last_snoc.
    + intros _.
      exists (SetTotalWork N
              :: events
                 ++ map SearchResultCallback (surfaced localeCompare values)).
      simpl. by rewrite <- app_assoc.
Qed.

(** The call of [_searchRequest] for a request that is not of a text type
    returns a settled promise. *)
Lemma for_requests_started requests done_requests promises w :
  Forall2 (fun request p => isTextType request = false -> settled p = true)
    done_requests promises ->
  Forall2 (fun request p => isTextType request = false -> settled p = true)
    (done_requests ++ requests)
    (for_requests E searchConfig progress requests promises w).1.
Proof.
  revert done_requests promises w.
  induction requests as [|request rest IH];
    intros done_requests promises w Hdone; simpl.
  - by rewrite app_nil_r.
  - unfold bind at 1.
    assert (isTextType request = false ->
            settled (_searchRequest E searchConfig progress request w).1 = true)
      as Hstart.
    { intros Htext. unfold _searchRequest. rewrite Htext. unfold bind, ret.
      by destruct (_searchRequest_continue _ _ _ _ _ _). }
    destruct (_searchRequest E searchConfig progress request w)
      as [promise w1].
    rewrite (cons_middle request), app_assoc. apply IH.
    apply Forall2_app; [done | by constructor].
Qed.

(** A schedule that resumes every waiting task leaves no promise
    waiting. *)
Lemma complete_schedule_all_settled :
  resumes_all searchConfig networkLog schedule ->
  Forall (fun p => settled p = true) tasks.1.
Proof.
  intros Hcomplete.
  destruct (performSearch_run E localeCompare searchConfig progress
              networkLog schedule)
    as (events & _ & _ & _ & Hlen & _ & _ & _).
  apply Forall_lookup. intros j p Hj.
  assert (is_Some (candidates searchConfig networkLog !! j))
    as [request Hrequest].
  { apply lookup_lt_is_Some. rewrite <- Hlen. by eapply lookup_lt_Some. }
  revert Hj. unfold performSearch_tasks, bind at 1, emit. simpl.
  unfold bind.
  pose proof (for_requests_started (candidates searchConfig networkLog) [] []
                {| polls := 0; log := [SetTotalWork N] |}
                (Forall2_nil_2 _ _ _)) as Hstarted.
  destruct (for_requests _ _ _ _ _ _) as [promises1 w1].
  intros Hj. eapply run_tasks_settles; [exact Hj|].
  destruct (isTextType request) eqn:Htext.
  - left. by eapply Hcomplete.
  - right. simpl in Hstarted.
    destruct (Forall2_lookup_l _ _ _ _ _ Hstarted Hrequest)
      as (p1 & Hp1 & Hsettled).
    exists p1. auto.
Qed.

(** When the tokens compile no task throws. *)
Lemma compiled_tasks_do_not_throw regExps :
  compile E (flags_of searchConfig) (queries searchConfig) = Normal regExps ->
  Forall (fun p => p <> Settled Throw) tasks.1.
Proof.
  intros Hcompile.
  pose proof (performSearch_tasks_task_of E searchConfig progress networkLog
                schedule initial) as Htasks.
  apply Forall_lookup. intros j p Hj.
  destruct (Forall2_lookup_r _ _ _ _ _ Htasks Hj) as (request & _ & Htask).
  destruct Htask as [-> | [-> | ->]]; try done.
  unfold uncanceled_search.
  by rewrite (collect_locations_compiled _ _ _ _ _ Hcompile).
Qed.

Lemma Promise_all_Fulfilled_iff promises :
  Forall (fun p => settled p = true) promises ->
  Forall (fun p => p <> Settled Throw) promises ->
  exists values, Promise_all promises = Fulfilled values.
Proof.
  induction 1 as [|p promises Hp _ IH]; intros Hthrow; simpl; [by eexists|].
  apply Forall_cons in Hthrow as [Hp' Hrest].
  destruct (IH Hrest) as [values ->].
  destruct p as [|[v|]]; try done. by eexists.
Qed.

(** When a token does not compile, a task that does not find the search
    cancelled throws. *)
Lemma Promise_all_Rejected promises :
  Forall (fun p => p = Settled Throw) promises -> promises <> [] ->
  Promise_all promises = Rejected.
Proof.
  intros Hall Hne. destruct Hall as [|p promises -> _]; done.
Qed.

Lemma malformed_tasks_throw :
  compile E (flags_of searchConfig) (queries searchConfig) = Throw ->
  resumes_all searchConfig networkLog schedule ->
  (forall k, k < N -> isCanceled progress k = false) ->
  Forall (fun p => p = Settled Throw) tasks.1.
Proof.
  intros Hcompile Hcomplete Hnever.
  pose proof (performSearch_tasks_task_of E searchConfig progress networkLog
                schedule initial) as Htasks.
  pose proof (complete_schedule_all_settled Hcomplete) as Hsettled.
  destruct (performSearch_run E localeCompare searchConfig progress
              networkLog schedule)
    as (events & _ & _ & Hpolls & Hlen & Hnull & _ & _).
  assert (polls tasks.2 <= N) as Hle.
  { rewrite Hpolls, <- Hlen. apply count_le. }
  apply Forall_lookup. intros j p Hj.
  destruct (Forall2_lookup_r _ _ _ _ _ Htasks Hj) as (request & _ & Htask).
  destruct Htask as [-> | [-> | ->]].
  - rewrite Forall_lookup in Hsettled. by specialize (Hsettled _ _ Hj).
  - destruct (Hnull _ (list_elem_of_lookup_2 _ _ _ Hj) eq_refl)
      as (k & Hk & Hans).
    rewrite Hnever in Hans by lia. done.
  - unfold uncanceled_search.
    by rewrite (collect_locations_throws _ _ _ _ Hcompile).
Qed.

End RunEnds.

(** X2. The protocol of the completion calls.  A run that resolves calls
    [searchFinishedCallback] exactly once, as its last call; it calls
    [progress.done()] exactly once, directly before, when the flag is
    [true], and never when the flag is [false], in which case nothing was
    delivered either.  A run that rejects or never settles calls neither
    callback and never [progress.done()]. *)
Theorem completion_protocol
    (E : RegExpEngine) (localeCompare : string -> string -> Z)
    (searchConfig : SearchConfig) (progress : Progress)
    (networkLog : list NetworkRequest) (schedule : list nat) :
  let run :=
    performSearch E localeCompare searchConfig progress networkLog schedule
      initial in
  match run.1 with
  | Resolves =>
      exists b,
        finished (log run.2) = [b]
        /\ last (log run.2) = Some (SearchFinishedCallback b)
        /\ done_calls (log run.2) = (if b then 1 else 0)
        /\ (b = true ->
            exists before,
              log run.2 = before ++ [Done; SearchFinishedCallback true])
        /\ (b = false -> delivered (log run.2) = [])
  | _ =>
      List.filter is_callback (log run.2) = [] /\ done_calls (log run.2) = 0
  end.
Proof.
  intros run.
  destruct run.1 eqn:Hrun;
    try (apply unresolved_run_is_silent; fold run; by rewrite Hrun).
  destruct (resolved_run_ends E localeCompare searchConfig progress networkLog
              schedule Hrun)
    as (values & _ & Hfinished & Hlast & Hdone & Hdelivered & Hbefore).
  eexists. split_and!; [exact Hfinished | exact Hlast | exact Hdone
                        | exact Hbefore |].
  intros Hb. fold run in Hdelivered. by rewrite Hb in Hdelivered.
Qed.

(** X3. A token that is no regular expression makes the run reject in
    silence: with at least one candidate, every task resumed and none
    finding the search cancelled, the promise of [performSearch] rejects,
    neither callback is called - [searchFinishedCallback] never comes -
    and neither [progress.worked()] nor [progress.done()] is called. *)
Theorem malformed_token_rejects
    (E : RegExpEngine) (localeCompare : string -> string -> Z)
    (searchConfig : SearchConfig) (progress : Progress)
    (networkLog : list NetworkRequest) (schedule : list nat)
    (Hmalformed :
       compile E (flags_of searchConfig) (queries searchConfig) = Throw)
    (Hcandidate : candidates searchConfig networkLog <> [])
    (Hresumed : resumes_all searchConfig networkLog schedule)
    (Hnever :
       forall k, k < List.length (candidates searchConfig networkLog) ->
                 isCanceled progress k = false) :
  let run :=
    performSearch E localeCompare searchConfig progress networkLog schedule
      initial in
  run.1 = Rejects
  /\ List.filter is_callback (log run.2) = []
  /\ worked_calls (log run.2) = 0
  /\ done_calls (log run.2) = 0.
Proof.
  intros run.
  pose proof (malformed_tasks_throw E localeCompare searchConfig progress
                networkLog schedule Hmalformed Hresumed Hnever) as Hthrow.
  destruct (performSearch_run E localeCompare searchConfig progress
              networkLog schedule)
    as (events & Hevents & Hworked & _ & Hlen & _ & Hrun & Hlog).
  fold run in Hrun, Hlog.
  rewrite Promise_all_Rejected in Hrun, Hlog; [|done| |done|].
  2, 3: intros Hnil; rewrite Hnil in Hlen; simpl in Hlen;
    by destruct (candidates searchConfig networkLog).
  split; [done|].
  assert (run.1 <> Resolves) as Hnot by (by rewrite Hrun).
  destruct (unresolved_run_is_silent E localeCompare searchConfig progress
              networkLog schedule Hnot) as [Hcb Hdone].
  split_and!; [done| |done].
  rewrite Hlog, app_nil_r.
  change (SetTotalWork ?n :: events) with ([SetTotalWork n] ++ events).
  rewrite worked_calls_app, Hworked. unfold worked_calls at 1. simpl.
  apply count_none_of. eapply Forall_impl; [exact Hthrow|].
  by intros p ->.
Qed.

Lemma malformed_token_rejects_witness :
  let run :=
    Examples.run ["("] Examples.never_canceled [Examples.script "a.js"] [0] in
  run.1 = Rejects
  /\ List.filter is_callback (log run.2) = []
  /\ worked_calls (log run.2) = 0
  /\ done_calls (log run.2) = 0.
Proof.
  apply (malformed_token_rejects Fragment.engine Fragment.compare_code_units
           (Examples.config ["("]) Examples.never_canceled
           [Examples.script "a.js"] [0]).
  - reflexivity.
  - discriminate.
  - intros [|[|i]] request Hi Htext; [apply list_elem_of_here | done..].
  - reflexivity.
Defined.

(** X4. When every token is a regular expression and every waiting task is
    resumed, the run resolves, and [searchFinishedCallback] is called
    exactly once: with [false] when the call of [isCanceled()] after the
    tasks, which is call number N+1, answers [true], with [true]
    otherwise. *)
Theorem valid_query_run_resolves
    (E : RegExpEngine) (localeCompare : string -> string -> Z)
    (searchConfig : SearchConfig) (progress : Progress)
    (networkLog : list NetworkRequest) (schedule : list nat)
    (regExps : list (RegExp E))
    (Hcompile :
       compile E (flags_of searchConfig) (queries searchConfig)
       = Normal regExps)
    (Hresumed : resumes_all searchConfig networkLog schedule) :
  let run :=
    performSearch E localeCompare searchConfig progress networkLog schedule
      initial in
  run.1 = Resolves
  /\ finished (log run.2)
     = [negb (isCanceled progress
                (List.length (candidates searchConfig networkLog)))].
Proof.
  intros run.
  pose proof (complete_schedule_all_settled E localeCompare searchConfig
                progress networkLog schedule Hresumed) as Hsettled.
  pose proof (compiled_tasks_do_not_throw E searchConfig progress networkLog
                schedule regExps Hcompile) as Hthrow.
  destruct (Promise_all_Fulfilled_iff _ Hsettled Hthrow) as [values Hall].
  destruct (performSearch_run E localeCompare searchConfig progress
              networkLog schedule)
    as (events & _ & _ & Hpolls & Hlen & _ & Hrun & _).
  fold run in Hrun. rewrite Hall in Hrun. split; [done|].
  destruct (resolved_run_ends E localeCompare searchConfig progress networkLog
              schedule Hrun) as (_ & _ & Hfinished & _).
  fold run in Hfinished. rewrite Hfinished, Hpolls, <- Hlen.
  by rewrite (count_all _ _ Hsettled).
Qed.

Lemma valid_query_run_resolves_witness :
  let run :=
    Examples.run ["foo"] (Examples.canceled_after 2)
      [Examples.image; Examples.script "a.js"] [1] in
  run.1 = Resolves /\ finished (log run.2) = [false].
Proof.
  apply (valid_query_run_resolves Fragment.engine Fragment.compare_code_units
           (Examples.config ["foo"]) (Examples.canceled_after 2)
           [Examples.image; Examples.script "a.js"] [1]
           [{| Fragment.atoms := [Fragment.PatternCharacter "f";
                                  Fragment.PatternCharacter "o";
                                  Fragment.PatternCharacter "o"];
               Fragment.ignore_case := false |}]).
  - reflexivity.
  - intros [|[|[|i]]] request Hi Htext; try done.
    + by injection Hi as <-.
    + apply list_elem_of_here.
Defined.

(** ** Where the delivered results come from *)

Section Delivered.

Context (E : RegExpEngine) (localeCompare : string -> string -> Z).
Context (searchConfig : SearchConfig) (progress : Progress).
Context (networkLog : list NetworkRequest) (schedule : list nat).

Abbreviation run :=
  (performSearch E localeCompare searchConfig progress networkLog schedule
     initial).

Lemma delivered_is_callback result events :
  result ∈ delivered events ->
  SearchResultCallback result ∈ List.filter is_callback events.
Proof.
  unfold delivered. intros (e & He & Hsome)%list_elem_of_omap.
  apply list_elem_of_In, filter_In.
  destruct e; try done. injection Hsome as ->.
  split; [by apply list_elem_of_In | done].
Qed.

(** A delivered result is what the search of a candidate returned. *)
Lemma delivered_origin result :
  result ∈ delivered (log run.2) ->
  exists request,
    request ∈ candidates searchConfig networkLog
    /\ uncanceled_search E searchConfig request = Normal (Some result).
Proof.
  intros Hdelivered.
  pose proof (performSearch_tasks_task_of E searchConfig progress networkLog
                schedule initial) as Htasks.
  destruct (run.1) eqn:Hrun.
  1, 2: assert (run.1 <> Resolves) as Hnot by (by rewrite Hrun);
    destruct (unresolved_run_is_silent E localeCompare searchConfig progress
                networkLog schedule Hnot) as [Hsilent _];
    apply delivered_is_callback in Hdelivered;
    rewrite Hsilent in Hdelivered; by apply elem_of_nil in Hdelivered.
  destruct (resolved_run_ends E localeCompare searchConfig progress networkLog
              schedule Hrun) as (values & Hall & _ & _ & _ & Hd & _).
  rewrite Hd in Hdelivered.
  destruct (negb _); [|by apply elem_of_nil in Hdelivered].
  unfold surfaced in Hdelivered.
  apply list_elem_of_In, filter_In in Hdelivered as [Hin _].
  apply list_elem_of_In in Hin. rewrite Array_sort_Permutation in Hin.
  apply list_elem_of_omap in Hin as (v & Hv & Hsome). simpl in Hsome. subst v.
  apply Promise_all_Fulfilled in Hall.
  assert (Settled (Normal (Some result))
          ∈ (performSearch_tasks E searchConfig progress networkLog schedule
               initial).1) as Hp.
  { rewrite Hall. apply list_elem_of_fmap. by exists (Some result). }
  apply list_elem_of_lookup in Hp as [i Hi].
  destruct (Forall2_lookup_r _ _ _ _ _ Htasks Hi) as (request & Hr & Htask).
  exists request. split; [by eapply list_elem_of_lookup_2|].
  by destruct Htask as [[=] | [[=] | [= <-]]].
Qed.

(** What the search of a candidate returns. *)
Lemma uncanceled_search_result request result :
  uncanceled_search E searchConfig request = Normal (Some result) ->
  exists regExps,
    compile E (flags_of searchConfig) (queries searchConfig) = Normal regExps
    /\ result
       = NetworkSearchResult.new request
           (spec_discovery_order (goes_through E regExps) request
              (bodyMatches_of searchConfig request)).
Proof.
  unfold uncanceled_search.
  destruct (collect_locations E searchConfig request _) as [locations|]
    eqn:Hcollect; [|done].
  intros [= <-].
  apply collect_locations_Normal in Hcollect as (regExps & Hcompile & ->).
  by exists regExps.
Qed.

End Delivered.

Lemma spec_discovery_order_requests matches r bodyMatches :
  Forall (fun l => request l = r)
    (spec_discovery_order matches r bodyMatches).
Proof.
  apply Forall_forall. intros l Hl.
  apply spec_discovery_order_elem in Hl
    as [-> | [(h & _ & ->) | [(h & _ & ->) | (b & _ & ->)]]]; done.
Qed.

Lemma spec_discovery_order_body_matches matches r bodyMatches :
  omap searchMatch (spec_discovery_order matches r bodyMatches) = bodyMatches.
Proof.
  unfold spec_discovery_order. rewrite !omap_app.
  assert (forall (f : NameValue -> UIRequestLocation) headers,
            (forall h, searchMatch (f h) = None) ->
            omap searchMatch (map f headers) = []) as Hnone.
  { intros f headers Hf. induction headers as [|h headers IH]; [done|].
    simpl. by rewrite Hf. }
  rewrite !Hnone by done.
  assert (omap searchMatch
            (if matches (url r) then [UIRequestLocation.urlMatch r] else [])
          = []) as -> by (by destruct (matches (url r))).
  simpl. induction bodyMatches as [|m rest IH]; [done|].
  simpl in *. by f_equal.
Qed.

(** X5. The file filter is respected: every result handed to
    [searchResultCallback] belongs to a request of the network log whose
    URL passes [filePathMatchesFileQuery], and each of its match locations
    points at that request. *)
Theorem delivered_results_pass_file_filter
    (E : RegExpEngine) (localeCompare : string -> string -> Z)
    (searchConfig : SearchConfig) (progress : Progress)
    (networkLog : list NetworkRequest) (schedule : list nat)
    (result : NetworkSearchResult)
    (Hdelivered :
       result ∈ delivered
                  (log (performSearch E localeCompare searchConfig progress
                          networkLog schedule initial).2)) :
  _request result ∈ networkLog
  /\ filePathMatchesFileQuery searchConfig (url (_request result)) = true
  /\ Forall (fun l => request l = _request result) (_locations result).
Proof.
  apply delivered_origin in Hdelivered as (r & Hr & Hsearch).
  apply uncanceled_search_result in Hsearch as (regExps & _ & ->).
  simpl. apply list_elem_of_In, filter_In in Hr as [Hin Hpasses].
  split_and!; [by apply list_elem_of_In | done |].
  apply spec_discovery_order_requests.
Qed.

Lemma delivered_results_pass_file_filter_witness :
  let result := Examples.script_result "a.js" in
  _request result ∈ [Examples.image; Examples.script "a.js"]
  /\ filePathMatchesFileQuery (Examples.config ["foo"]) (url (_request result))
     = true
  /\ Forall (fun l => request l = _request result) (_locations result).
Proof.
  apply (delivered_results_pass_file_filter Fragment.engine
           Fragment.compare_code_units (Examples.config ["foo"])
           Examples.never_canceled [Examples.image; Examples.script "a.js"]
           [1]).
  apply list_elem_of_here.
Defined.

(** X6. The body matches of a delivered result are the matches that
    [searchInContent] returned for its request, all of them and in the
    same order, when the request is of a text type; a request of another
    type has no body match. *)
Theorem body_locations_are_the_body_matches
    (E : RegExpEngine) (localeCompare : string -> string -> Z)
    (searchConfig : SearchConfig) (progress : Progress)
    (networkLog : list NetworkRequest) (schedule : list nat)
    (result : NetworkSearchResult)
    (Hdelivered :
       result ∈ delivered
                  (log (performSearch E localeCompare searchConfig progress
                          networkLog schedule initial).2)) :
  omap searchMatch (_locations result)
  = if isTextType (_request result) then
      searchInContent (_request result) (query searchConfig)
        (negb (ignoreCase searchConfig)) (isRegex searchConfig)
    else [].
Proof.
  apply delivered_origin in Hdelivered as (r & Hr & Hsearch).
  apply uncanceled_search_result in Hsearch as (regExps & _ & ->).
  simpl. apply spec_discovery_order_body_matches.
Qed.

Lemma body_locations_are_the_body_matches_witness :
  omap searchMatch (_locations (Examples.script_result "a.js"))
  = [Examples.line3].
Proof.
  apply (body_locations_are_the_body_matches Fragment.engine
           Fragment.compare_code_units (Examples.config ["foo"])
           Examples.never_canceled [Examples.image; Examples.script "a.js"]
           [1] (Examples.script_result "a.js")).
  apply list_elem_of_here.
Defined.

(** ** Results of the same label *)

Lemma filter_filter_comm {A} (f g : A -> bool) l :
  List.filter f (List.filter g l) = List.filter g (List.filter f l).
Proof.
  induction l as [|x l IH]; [done|]. simpl.
  destruct (f x) eqn:Hf, (g x) eqn:Hg; simpl; rewrite ?Hf, ?Hg, IH; done.
Qed.

(** In a run that resolves with no task finding the search cancelled, the
    tasks hold the results of the candidates, in the order of the
    candidates. *)
Lemma uncanceled_values
    (E : RegExpEngine) (localeCompare : string -> string -> Z)
    (searchConfig : SearchConfig) (progress : Progress)
    (networkLog : list NetworkRequest) (schedule : list nat) :
  let tasks :=
    performSearch_tasks E searchConfig progress networkLog schedule initial in
  (performSearch E localeCompare searchConfig progress networkLog schedule
     initial).1 = Resolves ->
  (forall k, k < List.length (candidates searchConfig networkLog) ->
             isCanceled progress k = false) ->
  Promise_all tasks.1
  = Fulfilled (map (search_value E searchConfig)
                 (candidates searchConfig networkLog))
  /\ polls tasks.2 = List.length (candidates searchConfig networkLog).
Proof.
  intros tasks Hresolves Hnever.
  destruct (uncanceled_run E localeCompare searchConfig progress networkLog
              schedule Hresolves Hnever) as (Htasks & Hpolls & _).
  split; [|done].
  destruct (resolved_run_ends E localeCompare searchConfig progress networkLog
              schedule Hresolves) as (values & Hall & _).
  fold tasks in Hall, Htasks. rewrite Hall. f_equal.
  apply Promise_all_Fulfilled in Hall. rewrite Htasks in Hall.
  clear -Hall. revert values Hall.
  induction (candidates searchConfig networkLog) as [|request rest IH];
    intros [|v values]; simpl; try done.
  intros [= Hv Hrest]. unfold search_value at 1. rewrite Hv. f_equal.
  by apply IH.
Qed.

(** X7. Results of the same label keep the order of the network log: in a
    run that resolves and is not cancelled, the delivered results whose
    labels are tied with a given one are the results with a match of the
    candidates so labelled, in the order in which the network log lists
    the candidates, whatever the order in which their tasks resolved. *)
Theorem tied_labels_keep_log_order
    (E : RegExpEngine) (localeCompare : string -> string -> Z)
    (searchConfig : SearchConfig) (progress : Progress)
    (networkLog : list NetworkRequest) (schedule : list nat)
    (Htotal : forall s1 s2,
       (localeCompare s1 s2 <= 0)%Z \/ (localeCompare s2 s1 <= 0)%Z)
    (Htrans : forall s1 s2 s3,
       (localeCompare s1 s2 <= 0)%Z -> (localeCompare s2 s3 <= 0)%Z ->
       (localeCompare s1 s3 <= 0)%Z)
    (Hresolves :
       (performSearch E localeCompare searchConfig progress networkLog
          schedule initial).1 = Resolves)
    (Hnever :
       forall k, k <= List.length (candidates searchConfig networkLog) ->
                 isCanceled progress k = false)
    (x : NetworkSearchResult) :
  List.filter (tied (compare_labels localeCompare) x)
    (delivered
       (log (performSearch E localeCompare searchConfig progress networkLog
               schedule initial).2))
  = List.filter (tied (compare_labels localeCompare) x)
      (List.filter (fun result =>
                      0 <? NetworkSearchResult.matchesCount result)
         (omap id (map (search_value E searchConfig)
                     (candidates searchConfig networkLog)))).
Proof.
  destruct (uncanceled_values E localeCompare searchConfig progress
              networkLog schedule Hresolves) as [Hvalues Hpolls].
  { intros k Hk. apply Hnever. lia. }
  destruct (resolved_run_ends E localeCompare searchConfig progress networkLog
              schedule Hresolves) as (values & Hall & _ & _ & _ & -> & _).
  rewrite Hvalues in Hall. injection Hall as <-.
  rewrite Hpolls, Hnever by lia. simpl. unfold surfaced.
  rewrite filter_filter_comm. rewrite Array_sort_stable.
  - apply filter_filter_comm.
  - intros r1 r2. apply Htotal.
  - intros r1 r2 r3. apply Htrans.
Qed.

(** Two documents both named [foo.html] are delivered in the order of the
    network log. *)
Lemma tied_labels_keep_log_order_witness :
  let run :=
    Examples.run ["foo"] Examples.never_canceled
      [Examples.page "b"; Examples.page "a"] [] in
  delivered (log run.2) = [Examples.page_result "b"; Examples.page_result "a"]
  /\ List.filter
       (tied (compare_labels Fragment.compare_code_units)
          (Examples.page_result "a"))
       (delivered (log run.2))
     = [Examples.page_result "b"; Examples.page_result "a"].
Proof.
  intros run. split; [reflexivity|]. unfold run, Examples.run.
  rewrite (tied_labels_keep_log_order Fragment.engine
             Fragment.compare_code_units (Examples.config ["foo"])
             Examples.never_canceled [Examples.page "b"; Examples.page "a"] []
             compare_code_units_total compare_code_units_trans eq_refl
             (fun k _ => eq_refl) (Examples.page_result "a")).
  reflexivity.
Defined.

(** ** Where the tokens match *)

Section Pieces.

Lemma string_app_cons c s1 s2 :
  String c s1 +:+ s2 = String c (s1 +:+ s2).
Proof. reflexivity. Qed.

Lemma string_app_assoc s1 s2 s3 : (s1 +:+ s2) +:+ s3 = s1 +:+ s2 +:+ s3.
Proof.
  induction s1 as [|c s1 IH]; [done|].
  by rewrite !string_app_cons, IH.
Qed.

Lemma string_length_app s1 s2 :
  String.length (s1 +:+ s2) = String.length s1 + String.length s2.
Proof.
  induction s1 as [|c s1 IH]; [done|].
  rewrite string_app_cons. simpl. by rewrite IH.
Qed.

Lemma substr_app s1 s2 : substr (s1 +:+ s2) (String.length s1) = s2.
Proof.
  induction s1 as [|c s1 IH]; [apply substr_0|].
  rewrite string_app_cons. simpl. exact IH.
Qed.

Lemma weave_length pieces rest :
  Forall (fun piece => piece.1 <> "") pieces ->
  List.length pieces <= String.length (weave pieces rest).
Proof.
  induction 1 as [|[gap match0] pieces Hgap _ IH]; simpl; [lia|].
  rewrite !string_length_app. destruct gap; [done|]. simpl in *. lia.
Qed.

Context (E : RegExpEngine) (Hsound : sound_engine E).

(** The loop cuts the string into a gap and a match for each token. *)
Lemma turns_pieces s regExps pos pos' :
  turns E s regExps pos = Some pos' ->
  exists pieces,
    substr s pos = weave pieces (substr s pos')
    /\ Forall2 (fun regExp piece =>
                  piece.1 <> ""
                  /\ exists remaining,
                       String_match E remaining regExp
                       = Some (String.length piece.1, piece.2))
         regExps pieces.
Proof.
  revert pos. induction regExps as [|regExp rest IH]; intros pos; simpl.
  - intros [= <-]. exists []. split; [done | constructor].
  - destruct (turn E s pos regExp) as [pos1|] eqn:Hturn; [|done].
    apply turn_Some in Hturn as (index & match0 & Hmatch & Hindex & ->).
    intros (pieces & Hrest & Hpieces)%IH.
    destruct (Hsound _ _ _ _ Hmatch) as (before & after & Hs & Hlen).
    exists ((before, match0) :: pieces). split.
    + simpl. rewrite <- Hrest, <- substr_substr, Hs, <- Hlen.
      rewrite <- string_length_app, <- string_app_assoc.
      by rewrite substr_app, string_app_assoc.
    + constructor; [|done]. simpl. split.
      * intros ->. simpl in Hlen. congruence.
      * exists (substr s pos). by rewrite Hlen.
Qed.

End Pieces.

Lemma compile_app E flags queries1 queries2 regExps :
  compile E flags (queries1 ++ queries2) = Normal regExps ->
  exists regExps1 regExps2,
    compile E flags queries1 = Normal regExps1
    /\ compile E flags queries2 = Normal regExps2
    /\ regExps = regExps1 ++ regExps2.
Proof.
  revert regExps.
  induction queries1 as [|query rest IH]; intros regExps; simpl.
  - intros Hcompile. by exists [], regExps.
  - destruct (RegExp_new E query flags) as [regExp|]; [|done]. simpl.
    destruct (compile E flags (rest ++ queries2)) as [regExps'|] eqn:Hrest;
      [|done].
    simpl. intros [= <-].
    destruct (IH _ eq_refl) as (regExps1 & regExps2 & -> & -> & ->).
    by exists (regExp :: regExps1), regExps2.
Qed.

Lemma compile_length E flags queries regExps :
  compile E flags queries = Normal regExps ->
  List.length regExps = List.length queries.
Proof.
  revert regExps. induction queries as [|query rest IH]; intros regExps; simpl.
  - by intros [= <-].
  - destruct (RegExp_new E query flags) as [regExp|]; [|done]. simpl.
    destruct (compile E flags rest) as [regExps'|]; [|done].
    simpl. intros [= <-]. simpl. by rewrite (IH _ eq_refl).
Qed.

(** The engine of the fragment is sound. *)
Lemma Fragment_search_sound ignore_case atoms s from index match0 :
  Fragment.search ignore_case atoms s from = Some (index, match0) ->
  exists before after,
    s = before +:+ match0 +:+ after /\ from + String.length before = index.
Proof.
  revert from. induction s as [|c s IH]; intros from; simpl.
  - destruct (Fragment.match_here ignore_case atoms "") as [m|] eqn:Hm;
      [|done].
    intros [= <- <-]. apply match_here_prefix in Hm as (_ & rest & Hrest).
    exists "", rest. split; [done | simpl; lia].
  - destruct (Fragment.match_here ignore_case atoms (String c s)) as [m|]
      eqn:Hm.
    + intros [= <- <-]. apply match_here_prefix in Hm as (_ & rest & Hrest).
      exists "", rest. split; [done | simpl; lia].
    + intros (before & after & -> & Hlen)%IH.
      exists (String c before), after. split; [done | simpl; lia].
Qed.

Lemma Fragment_sound : sound_engine Fragment.engine.
Proof.
  intros s r index match0 Hmatch. simpl in Hmatch.
  apply Fragment_search_sound in Hmatch as (before & after & Hs & Hlen).
  exists before, after. split; [done | lia].
Qed.

(** X8. Tokens added at the end of a query never add a match: a string
    that matches a query matches the query with its last tokens left
    out. *)
Theorem matching_is_prefix_closed
    (E : RegExpEngine) (searchConfig searchConfig' : SearchConfig)
    (tokens : list string) (s : string)
    (Hprefix : queries searchConfig = queries searchConfig' ++ tokens)
    (Hflags : ignoreCase searchConfig = ignoreCase searchConfig')
    (Haccepted : stringMatchesQuery E searchConfig s = Normal true) :
  stringMatchesQuery E searchConfig' s = Normal true.
Proof.
  revert Haccepted. unfold stringMatchesQuery, flags_of.
  rewrite Hprefix, Hflags.
  destruct (compile E _ (queries searchConfig' ++ tokens)) as [regExps|]
    eqn:Hcompile; [|done].
  apply compile_app in Hcompile as (regExps1 & regExps2 & -> & _ & ->).
  simpl. unfold goes_through. rewrite turns_app.
  by destruct (turns E s regExps1 0).
Qed.

Lemma matching_is_prefix_closed_witness :
  stringMatchesQuery Fragment.engine (Examples.config ["a"; "b"]) "-a-b"
  = Normal true
  /\ stringMatchesQuery Fragment.engine (Examples.config ["a"]) "-a-b"
     = Normal true.
Proof.
  split; [reflexivity|].
  apply (matching_is_prefix_closed Fragment.engine
           (Examples.config ["a"; "b"]) (Examples.config ["a"]) ["b"] "-a-b");
    reflexivity.
Defined.

(** X9. The tokens match in sequence, without overlap and never at the
    start: with an engine that reports matches where they are, a string
    that matches the query is made of one piece for each token, in the
    order of the tokens, each piece being a gap that is not empty followed
    by the match of the token, and of a rest.  So the string has at least
    as many characters as the query has tokens, and the empty string
    matches the empty query only. *)
Theorem matches_are_disjoint_and_in_order
    (E : RegExpEngine) (searchConfig : SearchConfig) (s : string)
    (Hsound : sound_engine E)
    (Haccepted : stringMatchesQuery E searchConfig s = Normal true) :
  (exists regExps pieces rest,
     compile E (flags_of searchConfig) (queries searchConfig) = Normal regExps
     /\ s = weave pieces rest
     /\ Forall2 (fun regExp piece =>
                   piece.1 <> ""
                   /\ exists remaining,
                        String_match E remaining regExp
                        = Some (String.length piece.1, piece.2))
          regExps pieces)
  /\ List.length (queries searchConfig) <= String.length s
  /\ (s = "" -> queries searchConfig = []).
Proof.
  assert (exists regExps pieces rest,
     compile E (flags_of searchConfig) (queries searchConfig) = Normal regExps
     /\ s = weave pieces rest
     /\ Forall2 (fun regExp piece =>
                   piece.1 <> ""
                   /\ exists remaining,
                        String_match E remaining regExp
                        = Some (String.length piece.1, piece.2))
          regExps pieces) as Hpieces.
  { revert Haccepted. unfold stringMatchesQuery.
    destruct (compile E _ _) as [regExps|] eqn:Hcompile; [|done].
    simpl. intros [= Hgoes].
    apply goes_through_true in Hgoes as [pos' Hturns].
    apply (turns_pieces E Hsound) in Hturns as (pieces & Hs & Hall).
    rewrite substr_0 in Hs. by exists regExps, pieces, (substr s pos'). }
  split; [exact Hpieces|].
  destruct Hpieces as (regExps & pieces & rest & Hcompile & -> & Hall).
  assert (List.length (queries searchConfig)
          <= String.length (weave pieces rest)) as Hlen.
  { rewrite <- (compile_length _ _ _ _ Hcompile), (Forall2_length _ _ _ Hall).
    apply weave_length. clear -Hall.
    induction Hall as [|r p rs ps [Hp _] _ IH]; by constructor. }
  split; [done|].
  intros Hempty. rewrite Hempty in Hlen.
  destruct (queries searchConfig); [done | simpl in Hlen; lia].
Qed.

Lemma matches_are_disjoint_and_in_order_witness :
  "-a-b" = weave [("-", "a"); ("-", "b")] ""
  /\ List.length (queries (Examples.config ["a"; "b"])) <= String.length "-a-b".
Proof.
  split; [reflexivity|].
  apply (matches_are_disjoint_and_in_order Fragment.engine
           (Examples.config ["a"; "b"]) "-a-b" Fragment_sound eq_refl).
Defined.

(** ** The accessors of a delivered result *)

Lemma discovered_location_accessors matches r bodyMatches this index l :
  l ∈ spec_discovery_order matches r bodyMatches ->
  _locations this !! index = Some l ->
  (exists content,
     NetworkSearchResult.matchLineContent this index = Normal content)
  /\ (exists label, NetworkSearchResult.matchLabel this index = Normal label).
Proof.
  intros Hl Hindex.
  unfold NetworkSearchResult.matchLineContent, NetworkSearchResult.matchLabel.
  rewrite Hindex.
  apply spec_discovery_order_elem in Hl
    as [-> | [(h & _ & ->) | [(h & _ & ->) | (b & _ & ->)]]];
    simpl; by eauto.
Qed.

(** X10. The accessors of a delivered result are safe exactly below its
    count: [matchLineContent(index)], [matchLabel(index)] and
    [matchRevealable(index)] return a value for every [index] below
    [matchesCount()]; at or above it the first two throw and the third
    returns [undefined]. *)
Theorem accessors_are_safe_below_the_count
    (E : RegExpEngine) (localeCompare : string -> string -> Z)
    (searchConfig : SearchConfig) (progress : Progress)
    (networkLog : list NetworkRequest) (schedule : list nat)
    (result : NetworkSearchResult) (index : nat)
    (Hdelivered :
       result ∈ delivered
                  (log (performSearch E localeCompare searchConfig progress
                          networkLog schedule initial).2)) :
  (index < NetworkSearchResult.matchesCount result ->
   (exists content,
      NetworkSearchResult.matchLineContent result index = Normal content)
   /\ (exists label,
         NetworkSearchResult.matchLabel result index = Normal label)
   /\ is_Some (NetworkSearchResult.matchRevealable result index))
  /\ (NetworkSearchResult.matchesCount result <= index ->
      NetworkSearchResult.matchLineContent result index = Throw
      /\ NetworkSearchResult.matchLabel result index = Throw
      /\ NetworkSearchResult.matchRevealable result index = None).
Proof.
  apply delivered_origin in Hdelivered as (r & _ & Hsearch).
  apply uncanceled_search_result in Hsearch as (regExps & _ & ->).
  unfold NetworkSearchResult.matchesCount, NetworkSearchResult.matchRevealable.
  split.
  - intros Hindex. apply lookup_lt_is_Some in Hindex as [l Hl].
    destruct (discovered_location_accessors _ _ _ _ _ _
                (list_elem_of_lookup_2 _ _ _ Hl) Hl) as [Hcontent Hlabel].
    split_and!; [done | done | by exists l].
  - intros Hindex. apply lookup_ge_None in Hindex.
    unfold NetworkSearchResult.matchLineContent,
      NetworkSearchResult.matchLabel.
    by rewrite Hindex.
Qed.

Lemma accessors_are_safe_below_the_count_witness :
  let result := Examples.script_result "a.js" in
  NetworkSearchResult.matchesCount result = 3
  /\ NetworkSearchResult.matchLabel result 2 = Normal (LabelNumber 4)
  /\ NetworkSearchResult.matchLineContent result 3 = Throw
  /\ (3 <= 3 ->
      NetworkSearchResult.matchLineContent result 3 = Throw
      /\ NetworkSearchResult.matchLabel result 3 = Throw
      /\ NetworkSearchResult.matchRevealable result 3 = None).
Proof.
  split_and!; [reflexivity..|].
  apply (accessors_are_safe_below_the_count Fragment.engine
           Fragment.compare_code_units (Examples.config ["foo"])
           Examples.never_canceled [Examples.image; Examples.script "a.js"]
           [1] (Examples.script_result "a.js") 3).
  apply list_elem_of_here.
Defined.

(** ** The kinds of issues *)

Lemma issueKindViewSortPriority_rank a b :
  (issueKindViewSortPriority a b <= 0)%Z
  <-> kind_rank (getKind a) <= kind_rank (getKind b).
Proof.
  unfold issueKindViewSortPriority.
  destruct (getKind a), (getKind b); simpl; split; (lia || done).
Qed.

(** X11. [issueKindViewSortPriority] is a consistent comparison function:
    it returns 0 exactly for views of the same kind, it changes sign when
    its arguments are exchanged, and it orders the kinds as page errors,
    then breaking changes, then improvements.  So an array of views sorted
    with it lists the kinds in that order, views of the same kind staying
    in the order they had. *)
Theorem issueKindViewSortPriority_orders_the_kinds :
  (forall a b,
     issueKindViewSortPriority a b = 0%Z <-> getKind a = getKind b)
  /\ (forall a b,
        issueKindViewSortPriority a b = (- issueKindViewSortPriority b a)%Z)
  /\ (forall a b,
        (issueKindViewSortPriority a b <= 0)%Z
        <-> kind_rank (getKind a) <= kind_rank (getKind b))
  /\ (forall views,
        StronglySorted
          (fun a b => kind_rank (getKind a) <= kind_rank (getKind b))
          (Array_sort issueKindViewSortPriority views)
        /\ Array_sort issueKindViewSortPriority views ≡ₚ views
        /\ forall k,
             List.filter (fun v => IssueKind_eqb (getKind v) k)
               (Array_sort issueKindViewSortPriority views)
             = List.filter (fun v => IssueKind_eqb (getKind v) k) views).
Proof.
  assert (forall a b,
    (issueKindViewSortPriority a b <= 0)%Z \/
    (issueKindViewSortPriority b a <= 0)%Z) as Htotal.
  { intros a b. rewrite !issueKindViewSortPriority_rank. lia. }
  assert (forall a b c,
    (issueKindViewSortPriority a b <= 0)%Z ->
    (issueKindViewSortPriority b c <= 0)%Z ->
    (issueKindViewSortPriority a c <= 0)%Z) as Htrans.
  { intros a b c. rewrite !issueKindViewSortPriority_rank. lia. }
  split_and!.
  - intros a b. unfold issueKindViewSortPriority.
    destruct (getKind a), (getKind b); simpl; split; done.
  - intros a b. unfold issueKindViewSortPriority.
    by destruct (getKind a), (getKind b).
  - apply issueKindViewSortPriority_rank.
  - intros views. split_and!.
    + eapply (Sorted.StronglySorted_ind
                (fun l => StronglySorted
                   (fun a b => kind_rank (getKind a) <= kind_rank (getKind b))
                   l));
        [constructor | | apply (Array_sort_StronglySorted _ Htotal Htrans)].
      intros a l _ IH Ha. constructor; [done|].
      eapply Forall_impl; [exact Ha|].
      intros b. apply issueKindViewSortPriority_rank.
    + apply Array_sort_Permutation.
    + intros k.
      set (witness := {| kind := k; issueCount := "" |}).
      assert (forall v,
        IssueKind_eqb (getKind v) k = tied issueKindViewSortPriority witness v)
        as Htied.
      { intros v. unfold tied, issueKindViewSortPriority. simpl.
        by destruct (getKind v), k. }
      rewrite !(List.filter_ext _ _ Htied).
      by apply Array_sort_stable.
Qed.

(** X12. The class names of the kinds are pairwise different. *)
Theorem getClassNameFromKind_is_injective (k1 k2 : IssueKind)
    (Hsame : getClassNameFromKind k1 = getClassNameFromKind k2) :
  k1 = k2.
Proof. by destruct k1, k2. Qed.

Lemma getClassNameFromKind_is_injective_witness : PageError = PageError.
Proof.
  apply (getClassNameFromKind_is_injective PageError PageError). reflexivity.
Defined.

(** ** Deprecation issues *)

Section DeprecationFacts.

Import DeprecationIssue.

(** The numbers of the table are natural numbers that a JavaScript number
    holds exactly. *)
Lemma getDescription_switch_numbers type :
  (0 <= (getDescription_switch type).1.2 < 2 ^ 53)%Z
  /\ (0 <= (getDescription_switch type).2 < 2 ^ 53)%Z.
Proof. destruct type; simpl; lia. Qed.

Lemma getDescription_switch_message type :
  (forall name, type <> OtherType name) ->
  (getDescription_switch type).1.1 <> EmptyMessage.
Proof. intros Hlisted. destruct type; try done. exfalso. by eapply Hlisted. Qed.

(** Different numbers are written differently. *)
Lemma Number_toString_inj n n' :
  Number_toString n = Number_toString n' -> n = n'.
Proof.
  unfold Number_toString. intros Hsame.
  assert (forall z, NilZero.int_of_string (NilZero.string_of_int (Z.to_int z))
                    = Some (Z.to_int z)) as Hread.
  { intros z. apply NilZero.isi; destruct z; simpl; try done;
      intros [= Hnil]; by apply DecimalPos.Unsigned.to_uint_nonnil in Hnil. }
  apply DecimalZ.to_int_inj.
  pose proof (Hread n) as Hn. rewrite Hsame, Hread in Hn. congruence.
Qed.

(** The links of a description, read off the numbers after the [switch]. *)
Lemma getDescription_links {SourceCodeLocation IssuesModel : Type}
    (this : @t SourceCodeLocation IssuesModel) :
  links (getDescription this)
  = (if ((getDescription_switch (type (issueDetails this))).1.2 =? 0)%Z
     then []
     else [{| link := "https://chromestatus.com/feature/"
                      +:+ Number_toString
                            (getDescription_switch
                               (type (issueDetails this))).1.2;
              linkTitle := Localized "feature" [] |}])
    ++ (if ((getDescription_switch (type (issueDetails this))).2 =? 0)%Z
        then []
        else [{| link := "https://chromiumdash.appspot.com/schedule";
                 linkTitle :=
                   Localized "milestone"
                     [("milestone",
                       Number (getDescription_switch
                                 (type (issueDetails this))).2)] |}]).
Proof.
  unfold getDescription.
  destruct (getDescription_switch (type (issueDetails this)))
    as [[messageFunction feature] milestone].
  simpl. by destruct (feature =? 0)%Z, (milestone =? 0)%Z.
Qed.

End DeprecationFacts.

(** X13. The links of the description of a deprecation issue are fixed by
    the numbers the [switch] sets for the type of the issue: the feature
    status page of the feature, with the number of the feature written out
    in its address, exactly when the [switch] sets a feature, followed by
    the release schedule, with the milestone in its title, exactly when the
    [switch] sets a milestone; so there are at most two links.  Every
    feature number and milestone of the [switch] is a natural number below
    2^53, which a JavaScript number holds exactly, and the links tell the
    numbers: two issues with the same links have the same feature and the
    same milestone.  The message of a type that the [switch] lists is never
    the empty default, and the description always fills the placeholders
    of the title and of the message, in the file [deprecation.md]. *)
Theorem deprecation_description_links
    {SourceCodeLocation IssuesModel : Type}
    (this : @DeprecationIssue.t SourceCodeLocation IssuesModel) :
  let description := DeprecationIssue.getDescription this in
  let numbers_of (issue : @DeprecationIssue.t SourceCodeLocation IssuesModel) :=
    DeprecationIssue.getDescription_switch
      (DeprecationIssue.type (DeprecationIssue.issueDetails issue)) in
  let feature := (numbers_of this).1.2 in
  let milestone := (numbers_of this).2 in
  DeprecationIssue.links description
  = (if (feature =? 0)%Z then []
     else [{| DeprecationIssue.link :=
                "https://chromestatus.com/feature/"
                +:+ DeprecationIssue.Number_toString feature;
              DeprecationIssue.linkTitle :=
                DeprecationIssue.Localized "feature" [] |}])
    ++ (if (milestone =? 0)%Z then []
        else [{| DeprecationIssue.link :=
                   "https://chromiumdash.appspot.com/schedule";
                 DeprecationIssue.linkTitle :=
                   DeprecationIssue.Localized "milestone"
                     [("milestone", DeprecationIssue.Number milestone)] |}])
  /\ List.length (DeprecationIssue.links description) <= 2
  /\ (0 <= feature < 2 ^ 53)%Z
  /\ (0 <= milestone < 2 ^ 53)%Z
  /\ (forall other : @DeprecationIssue.t SourceCodeLocation IssuesModel,
        DeprecationIssue.links (DeprecationIssue.getDescription other)
        = DeprecationIssue.links description ->
        (numbers_of other).1.2 = feature /\ (numbers_of other).2 = milestone)
  /\ DeprecationIssue.file description = "deprecation.md"
  /\ map fst (DeprecationIssue.substitutions description)
     = ["PLACEHOLDER_title"; "PLACEHOLDER_message"]
  /\ ((forall name,
         DeprecationIssue.type (DeprecationIssue.issueDetails this)
         <> DeprecationIssue.OtherType name) ->
      Forall (fun substitution => substitution.2 <> DeprecationIssue.EmptyMessage)
        (DeprecationIssue.substitutions description)).
Proof.
  intros description numbers_of feature milestone.
  pose proof (getDescription_links this) as Hlinks.
  pose proof (getDescription_switch_numbers
                (DeprecationIssue.type (DeprecationIssue.issueDetails this)))
    as [Hfeature Hmilestone].
  split_and!;
    [exact Hlinks | | apply Hfeature | apply Hfeature | apply Hmilestone
    | apply Hmilestone | | | |].
  - subst description. rewrite Hlinks.
    destruct (_ =? 0)%Z, (_ =? 0)%Z; simpl; lia.
  - intros other. subst description. rewrite Hlinks, (getDescription_links other).
    subst feature milestone. unfold numbers_of.
    generalize
      (DeprecationIssue.getDescription_switch
         (DeprecationIssue.type (DeprecationIssue.issueDetails other))).1.2
      (DeprecationIssue.getDescription_switch
         (DeprecationIssue.type (DeprecationIssue.issueDetails other))).2
      (DeprecationIssue.getDescription_switch
         (DeprecationIssue.type (DeprecationIssue.issueDetails this))).1.2
      (DeprecationIssue.getDescription_switch
         (DeprecationIssue.type (DeprecationIssue.issueDetails this))).2.
    clear. intros feature' milestone' feature milestone.
    destruct (Z.eqb_spec feature' 0) as [->|Hf'],
      (Z.eqb_spec milestone' 0) as [->|Hm'],
      (Z.eqb_spec feature 0) as [->|Hf],
      (Z.eqb_spec milestone 0) as [->|Hm];
      cbn [app]; intros Hsame; try done; try discriminate Hsame.
    + injection Hsame as Hsame. by subst.
    + injection Hsame as Hsame%String.app_inj%Number_toString_inj.
      by subst.
    + injection Hsame as Hsame%String.app_inj%Number_toString_inj Hmilestones.
      by subst.
  - subst description. unfold DeprecationIssue.getDescription.
    by destruct (DeprecationIssue.getDescription_switch _) as [[? ?] ?].
  - subst description. unfold DeprecationIssue.getDescription.
    by destruct (DeprecationIssue.getDescription_switch _) as [[? ?] ?].
  - intros Hlisted.
    pose proof (getDescription_switch_message _ Hlisted) as Hmessage.
    subst description. unfold DeprecationIssue.getDescription.
    destruct (DeprecationIssue.getDescription_switch _) as [[? ?] ?].
    repeat constructor; simpl; [done | by apply Hmessage].
Qed.

(** The description of the issue of an expired [Expect-CT] header: the
    feature page, then the schedule; the issue of [Range.expand()] has
    neither. *)
Lemma deprecation_description_links_witness :
  let this :=
    DeprecationIssue.new "DeprecationIssue" (fun _ => "ExpectCTHeader")
      {| DeprecationIssue.type := DeprecationIssue.ExpectCTHeader;
         DeprecationIssue.sourceCodeLocation := @None unit |} tt in
  let other :=
    DeprecationIssue.new "DeprecationIssue" (fun _ => "RangeExpand")
      {| DeprecationIssue.type := DeprecationIssue.RangeExpand;
         DeprecationIssue.sourceCodeLocation := @None unit |} tt in
  map DeprecationIssue.link
    (DeprecationIssue.links (DeprecationIssue.getDescription this))
  = ["https://chromestatus.com/feature/6244547273687040";
     "https://chromiumdash.appspot.com/schedule"]
  /\ DeprecationIssue.links (DeprecationIssue.getDescription other) = []
  /\ Forall (fun substitution => substitution.2 <> DeprecationIssue.EmptyMessage)
       (DeprecationIssue.substitutions (DeprecationIssue.getDescription this)).
Proof.
  intros this other.
  destruct (deprecation_description_links this)
    as (Hthis & _ & _ & _ & _ & _ & _ & Hmessage).
  destruct (deprecation_description_links other) as (Hother & _).
  split_and!.
  - rewrite Hthis. reflexivity.
  - rewrite Hother. reflexivity.
  - apply Hmessage. done.
Defined.

(** X14. [fromInspectorIssue] loses nothing and invents nothing: it
    returns one issue that carries the details it was given, with the
    source location of the details as its only source, of the kind
    breaking change and with the code made of the issue code and the type;
    without details it returns no issue and writes one warning. *)
Theorem fromInspectorIssue_keeps_the_details
    {SourceCodeLocation IssuesModel : Type}
    (InspectorIssueCode_DeprecationIssue : string)
    (type_string : DeprecationIssue.DeprecationIssueType -> string)
    (issuesModel : IssuesModel)
    (deprecationIssueDetails :
       option (@DeprecationIssue.DeprecationIssueDetails SourceCodeLocation)) :
  let result :=
    DeprecationIssue.fromInspectorIssue InspectorIssueCode_DeprecationIssue
      type_string issuesModel deprecationIssueDetails in
  map DeprecationIssue.details result.1 = option_list deprecationIssueDetails
  /\ List.concat (map DeprecationIssue.sources result.1)
     = option_list (deprecationIssueDetails
                    ≫= DeprecationIssue.sourceCodeLocation)
  /\ Forall (fun issue =>
               DeprecationIssue.getKind issue = BreakingChange
               /\ DeprecationIssue.issuesModel issue = issuesModel
               /\ DeprecationIssue.code issue
                  = InspectorIssueCode_DeprecationIssue +:+ "::"
                    +:+ type_string
                          (DeprecationIssue.type
                             (DeprecationIssue.details issue)))
       result.1
  /\ List.length result.2
     = match deprecationIssueDetails with Some _ => 0 | None => 1 end.
Proof.
  destruct deprecationIssueDetails as [[type location]|]; simpl.
  - split_and!; try done.
    + unfold DeprecationIssue.sources. simpl. by destruct location.
    + by repeat constructor.
  - by split_and!.
Qed.

(** ** The URL and header locations are the matches *)

(** X15. The URL and header locations of a delivered result are the
    matches, no more and no less: the result has the URL location exactly
    when the URL of its request matches the query, and the location of a
    header exactly when the header is one of the request's and its text
    [name: value] matches the query. *)
Theorem url_and_header_locations_are_the_matches
    (E : RegExpEngine) (localeCompare : string -> string -> Z)
    (searchConfig : SearchConfig) (progress : Progress)
    (networkLog : list NetworkRequest) (schedule : list nat)
    (result : NetworkSearchResult)
    (Hdelivered :
       result ∈ delivered
                  (log (performSearch E localeCompare searchConfig progress
                          networkLog schedule initial).2)) :
  let r := _request result in
  (UIRequestLocation.urlMatch r ∈ _locations result
   <-> stringMatchesQuery E searchConfig (url r) = Normal true)
  /\ (forall header,
        UIRequestLocation.requestHeaderMatch r (Some header)
        ∈ _locations result
        <-> header ∈ requestHeaders r
            /\ headerMatchesQuery E searchConfig header = Normal true)
  /\ (forall header,
        UIRequestLocation.responseHeaderMatch r (Some header)
        ∈ _locations result
        <-> header ∈ responseHeaders r
            /\ headerMatchesQuery E searchConfig header = Normal true).
Proof.
  apply delivered_origin in Hdelivered as (r & _ & Hsearch).
  apply uncanceled_search_result in Hsearch as (regExps & Hcompile & ->).
  simpl. unfold headerMatchesQuery.
  assert (forall s,
    stringMatchesQuery E searchConfig s = Normal true
    <-> goes_through E regExps s = true) as Hmatches.
  { intros s. rewrite (stringMatchesQuery_compiled _ _ _ _ Hcompile).
    split; [by intros [= ->] | by intros ->]. }
  split_and!.
  - rewrite Hmatches. apply spec_discovery_order_url.
  - intros header. rewrite Hmatches.
    apply spec_discovery_order_request_header.
  - intros header. rewrite Hmatches.
    apply spec_discovery_order_response_header.
Qed.

(** The script: its URL and its request header [Accept] match [foo], its
    response header [Server] does not. *)
Lemma url_and_header_locations_are_the_matches_witness :
  let result := Examples.script_result "a.js" in
  let r := Examples.script "a.js" in
  UIRequestLocation.requestHeaderMatch r (Some Examples.accept)
  ∈ _locations result
  /\ ~ UIRequestLocation.responseHeaderMatch r (Some Examples.server)
       ∈ _locations result.
Proof.
  intros result r.
  destruct (url_and_header_locations_are_the_matches Fragment.engine
              Fragment.compare_code_units (Examples.config ["foo"])
              Examples.never_canceled [Examples.image; Examples.script "a.js"]
              [1] result (list_elem_of_here _ _))
    as (_ & Hrequest & Hresponse).
  split.
  - apply Hrequest. split; [apply list_elem_of_here | reflexivity].
  - intros [_ Hmatch]%Hresponse. discriminate Hmatch.
Defined.

(** [performIndexing] calls nothing before it returns; its microtask is
    the one call of [progress.done()]. *)
Lemma performIndexing_defers_done w :
  (performIndexing w).2 = w
  /\ map (fun microtask => log (microtask w).2) (performIndexing w).1
     = [log w ++ [Done]]
  /\ stopSearch w = (tt, w).
Proof. done. Qed.
